(** * A scalar reverse-mode automatic-differentiation engine

    Shallow embedding of [src/main.py]: the class [Value] (a node of the
    computation graph with its arithmetic, its local backward rules and the
    topological backward pass) and the classes [Neuron], [Layer] and [MLP]
    built on top of it.

    - Python objects live in a heap, a list of [Value] records addressed by
      their position; a [handle] is the identity of a Python object, so that
      two references to one node share its gradient accumulator.
    - [data] and [gradient] are IEEE-754 binary64 numbers, as Python's
      [float]: the kernel's primitive floats.  An [int] literal met by the
      arithmetic ([-1] in [__neg__], [2] and [1] in [tanh]) is kept at its
      float value, which is what Python does with it as soon as the other
      operand is a float.
    - Methods run in a state-and-exception monad [M]: the heap persists when
      an exception propagates.
    - A closure [_backward] is the constructor of [rule] that names the body it
      was defined with, together with the variables it captured. *)

From Stdlib Require Import ZArith Floats.
From stdpp Require Import base option list sets gmap.

(** ** The host language *)

Inductive exn :=
| AssertionError
| ZeroDivisionError
| OverflowError
| TypeError
| RecursionError.

Inductive pyresult (A : Type) :=
| Ok (a : A)
| Raise (e : exn).
Arguments Ok {A} a.
Arguments Raise {A} e.

(** The identity of a [Value] object. *)
Abbreviation handle := nat.

(** The numbers accepted by [isinstance(other, (int, float))]. *)
Inductive number :=
| Int (n : Z)
| Float (x : float).

(** What a caller may hand to [__pow__] as exponent. *)
Inductive pyobject :=
| PyInt (n : Z)
| PyFloat (x : float)
| PyNone
| PyValue (v : handle).

(** The right operand of a binary operator: a node or a bare float. *)
Inductive operand :=
| OValue (v : handle)
| ONum (x : float).

(** What is passed to and returned by [Neuron], [Layer] and [MLP]: a list, or
    the bare node that [Layer.__call__] returns for a single neuron. *)
Inductive activations :=
| one (v : handle)
| many (xs : list operand).

Definition as_number (o : pyobject) : option number :=
  match o with
  | PyInt n => Some (Int n)
  | PyFloat x => Some (Float x)
  | PyNone | PyValue _ => None
  end.

(** [float(n)] for an [int]: rounded to nearest, ties to even, and an
    [OverflowError] when [n] is too large for a float. *)
Definition float_of_int (n : Z) : pyresult float :=
  let x := SF2Prim (binary_normalize prec emax n 0 false) in
  if is_infinity x then Raise OverflowError else Ok x.

Definition to_float (n : number) : pyresult float :=
  match n with
  | Int n => float_of_int n
  | Float x => Ok x
  end.

(** [other - 1] *)
Definition number_pred (n : number) : number :=
  match n with
  | Int n => Int (n - 1)
  | Float x => Float (x - 1)%float
  end.

(** [x / y] on floats *)
Definition float_truediv (x y : float) : pyresult float :=
  if (y =? 0)%float then Raise ZeroDivisionError else Ok (x / y)%float.

(** What the source leaves to its environment:
    - [math_exp]: [math.exp], which raises [OverflowError] on a range error;
    - [pow_general]: [x ** y] on floats in the cases that CPython does not
      settle before it consults the C library (see [float_pow]);
    - [set_order]: the order in which [set(children)] is iterated;
    - [uniform k]: the result of the [k]-th call of [random.uniform(-1, 1)]. *)
Record Host := {
  math_exp : float → pyresult float;
  pow_general : float → float → pyresult float;
  set_order : list handle → list handle;
  uniform : nat → float;
}.

(** A set holds each of its elements once, in some order. *)
Definition host_ok (host : Host) : Prop :=
  ∀ l, NoDup (set_order host l) ∧ ∀ x, x ∈ set_order host l ↔ x ∈ l.

(** ** Nodes and closures *)

(** The [operation] label: [''], ['+'], ['*'], [f'**{other}'], ['tanh'],
    ['exp']. *)
Inductive optag :=
| op_leaf
| op_add
| op_mul
| op_pow (other : number)
| op_tanh
| op_exp.

(** The closures stored in [_backward], with their captured variables. *)
Inductive rule :=
| lambda_None
| add_backward (self other out : handle)
| mul_backward (self other out : handle)
| pow_backward (self : handle) (other : number) (out : handle)
| tanh_backward (self : handle) (t : float) (out : handle)
| exp_backward (self out : handle).

Record Value := mkValue {
  data : float;
  previous : list handle;
  operation : optag;
  gradient : float;
  _backward : rule;
}.

Definition with_gradient (g : float) (v : Value) : Value :=
  mkValue (data v) (previous v) (operation v) g (_backward v).

Definition with_backward (r : rule) (v : Value) : Value :=
  mkValue (data v) (previous v) (operation v) (gradient v) r.

(** ** The monad of methods *)

Record state := mkState {
  heap : list Value;
  draws : nat;
}.

Definition M (A : Type) : Type := state → pyresult A * state.

Definition ret {A} (a : A) : M A := λ s, (Ok a, s).

Definition bind {A B} (m : M A) (k : A → M B) : M B :=
  λ s, match m s with
       | (Ok a, s') => k a s'
       | (Raise e, s') => (Raise e, s')
       end.

Definition lift {A} (r : pyresult A) : M A := λ s, (r, s).

Notation "x <- m ;; k" := (bind m (λ x, k))
  (at level 20, m at level 99, k at level 200).
Notation "m ;;; k" := (bind m (λ _, k))
  (at level 99, k at level 200, right associativity).

Fixpoint for_each {A} (body : A → M unit) (l : list A) : M unit :=
  match l with
  | [] => ret tt
  | x :: l => body x ;;; for_each body l
  end.

Fixpoint map_M {A B} (f : A → M B) (l : list A) : M (list B) :=
  match l with
  | [] => ret []
  | x :: l => y <- f x ;; ys <- map_M f l ;; ret (y :: ys)
  end.

Fixpoint fold_M {A B} (f : B → A → M B) (l : list A) (acc : B) : M B :=
  match l with
  | [] => ret acc
  | x :: l => acc' <- f acc x ;; fold_M f l acc'
  end.

Fixpoint repeat_M {A} (n : nat) (m : M A) : M (list A) :=
  match n with
  | O => ret []
  | S n => x <- m ;; xs <- repeat_M n m ;; ret (x :: xs)
  end.

(** A handle that the heap does not hold has no counterpart in Python; it
    reads as a fresh leaf. *)
Definition blank : Value := mkValue 0 [] op_leaf 0 lambda_None.

Definition deref (hp : list Value) (v : handle) : Value :=
  default blank (hp !! v).

Definition read {A} (f : Value → A) (v : handle) : M A :=
  λ s, (Ok (f (deref (heap s) v)), s).

Definition write (f : Value → Value) (v : handle) : M unit :=
  λ s, (Ok tt, mkState (alter f v (heap s)) (draws s)).

Definition alloc (x : Value) : M handle :=
  λ s, (Ok (length (heap s)), mkState (heap s ++ [x]) (draws s)).

(** [v.gradient += x] *)
Definition accumulate (x : float) (n : Value) : Value :=
  with_gradient (gradient n + x)%float n.

Definition iadd_gradient (v : handle) (x : float) : M unit :=
  write (accumulate x) v.

(** [random.uniform(-1, 1)] *)
Definition random_uniform (host : Host) : M float :=
  λ s, (Ok (uniform host (draws s)), mkState (heap s) (S (draws s))).

(** ** class Value *)

Module Value.
Section methods.
Context (host : Host).

(** [x ** y] on floats.  CPython answers [1.0] for a zero exponent and
    raises for a zero base with a finite negative exponent; every other
    case is the host's. *)
Definition float_pow (iv iw : float) : pyresult float :=
  if (iw =? 0)%float then Ok 1%float
  else if (iv =? 0)%float && (iw <? 0)%float && negb (is_infinity iw)
       then Raise ZeroDivisionError
       else pow_general host iv iw.

(** [x ** n] for a float [x] and an int or float [n] *)
Definition pow (x : float) (n : number) : pyresult float :=
  match to_float n with
  | Ok y => float_pow x y
  | Raise e => Raise e
  end.

(** [n * x] for an int or float [n] and a float [x] *)
Definition number_mul (n : number) (x : float) : pyresult float :=
  match to_float n with
  | Ok y => Ok (y * x)%float
  | Raise e => Raise e
  end.

Definition __init__ (data : float) (children : list handle)
    (operation : optag) : M handle :=
  alloc (mkValue data (set_order host children) operation 0 lambda_None).

(** [other if isinstance(other, Value) else Value(other)] *)
Definition coerce (other : operand) : M handle :=
  match other with
  | OValue v => ret v
  | ONum x => __init__ x [] op_leaf
  end.

Definition __add__ (self : handle) (other : operand) : M handle :=
  other <- coerce other ;;
  a <- read data self ;;
  b <- read data other ;;
  out <- __init__ (a + b)%float [self; other] op_add ;;
  write (with_backward (add_backward self other out)) out ;;;
  ret out.

Definition __radd__ (self : handle) (other : operand) : M handle :=
  __add__ self other.

Definition __mul__ (self : handle) (other : operand) : M handle :=
  other <- coerce other ;;
  a <- read data self ;;
  b <- read data other ;;
  out <- __init__ (a * b)%float [self; other] op_mul ;;
  write (with_backward (mul_backward self other out)) out ;;;
  ret out.

Definition __rmul__ (self : handle) (other : operand) : M handle :=
  __mul__ self other.

Definition __pow__ (self : handle) (other : pyobject) : M handle :=
  match as_number other with
  | None => lift (Raise AssertionError)
  | Some other =>
      a <- read data self ;;
      p <- lift (pow a other) ;;
      out <- __init__ p [self] (op_pow other) ;;
      write (with_backward (pow_backward self other out)) out ;;;
      ret out
  end.

Definition __neg__ (self : handle) : M handle :=
  __mul__ self (ONum (-1)%float).

Definition __sub__ (self : handle) (other : operand) : M handle :=
  match other with
  | OValue v => n <- __neg__ v ;; __add__ self (OValue n)
  | ONum x => __add__ self (ONum (- x)%float)
  end.

Definition __truediv__ (self : handle) (other : operand) : M handle :=
  match other with
  | OValue v => r <- __pow__ v (PyInt (-1)) ;; __mul__ self (OValue r)
  | ONum x => r <- lift (pow x (Int (-1))) ;; __mul__ self (ONum r)
  end.

Definition tanh (self : handle) : M handle :=
  x <- read data self ;;
  e1 <- lift (math_exp host (2 * x)%float) ;;
  e2 <- lift (math_exp host (2 * x)%float) ;;
  t <- lift (float_truediv (e1 - 1) (e2 + 1))%float ;;
  out <- __init__ t [self] op_tanh ;;
  write (with_backward (tanh_backward self t out)) out ;;;
  ret out.

Definition exp (self : handle) : M handle :=
  x <- read data self ;;
  e <- lift (math_exp host x) ;;
  out <- __init__ e [self] op_exp ;;
  write (with_backward (exp_backward self out)) out ;;;
  ret out.

(** Calling a closure. *)
Definition call (r : rule) : M unit :=
  match r with
  | lambda_None => ret tt
  | add_backward self other out =>
      g <- read gradient out ;;
      iadd_gradient self (1 * g)%float ;;;
      g <- read gradient out ;;
      iadd_gradient other (1 * g)%float
  | mul_backward self other out =>
      d <- read data other ;;
      g <- read gradient out ;;
      iadd_gradient self (d * g)%float ;;;
      d <- read data self ;;
      g <- read gradient out ;;
      iadd_gradient other (d * g)%float
  | pow_backward self other out =>
      d <- read data self ;;
      p <- lift (pow d (number_pred other)) ;;
      x <- lift (number_mul other p) ;;
      g <- read gradient out ;;
      iadd_gradient self (x * g)%float
  | tanh_backward self t out =>
      p <- lift (pow t (Int 2)) ;;
      g <- read gradient out ;;
      iadd_gradient self ((1 - p) * g)%float
  | exp_backward self out =>
      d <- read data out ;;
      g <- read gradient out ;;
      iadd_gradient self (d * g)%float
  end.

(** [node._backward()] *)
Definition call_backward (node : handle) : M unit :=
  r <- read _backward node ;; call r.

(** The loop [for child in value.previous: build_topo(child)] over the
    local variables [visited] and [topo]. *)
Fixpoint for_children (body : handle → gset handle * list handle →
                              option (gset handle * list handle))
    (children : list handle) (st : gset handle * list handle)
    : option (gset handle * list handle) :=
  match children with
  | [] => Some st
  | child :: children =>
      match body child st with
      | Some st' => for_children body children st'
      | None => None
      end
  end.

(** The local function [build_topo] of [backward]; [fuel] bounds the depth
    of the recursion. *)
Fixpoint build_topo (fuel : nat) (hp : list Value) (value : handle)
    (st : gset handle * list handle) : option (gset handle * list handle) :=
  match fuel with
  | O => None
  | S fuel =>
      if decide (value ∈ st.1) then Some st
      else
        match for_children (build_topo fuel hp) (previous (deref hp value))
                ({[value]} ∪ st.1, st.2) with
        | Some st' => Some (st'.1, st'.2 ++ [value])
        | None => None
        end
  end.

(** [topo] after the call [build_topo(self)]. *)
Definition topo_of (hp : list Value) (self : handle) : option (list handle) :=
  match build_topo (S (length hp)) hp self (∅, []) with
  | Some st => Some st.2
  | None => None
  end.

Definition backward (self : handle) : M unit :=
  λ s, match topo_of (heap s) self with
       | None => (Raise RecursionError, s)
       | Some topo =>
           (write (with_gradient 1) self ;;;
            for_each call_backward (reverse topo)) s
       end.
End methods.
End Value.

(** ** class Neuron *)

Module Neuron.
Record t := mk {
  w : list handle;
  b : handle;
}.

Section methods.
Context (host : Host).

(** [Value(random.uniform(-1, 1))] *)
Definition random_Value : M handle :=
  x <- random_uniform host ;; Value.__init__ host x [] op_leaf.

Definition __init__ (nin : nat) : M t :=
  w <- repeat_M nin random_Value ;;
  b <- random_Value ;;
  ret (mk w b).

(** One turn of [sum] over the generator [wi*xi for wi, xi in zip(...)]:
    the next product is built, then added to the running total. *)
Definition sum_step (acc : handle) (wx : handle * operand) : M handle :=
  p <- Value.__mul__ host wx.1 wx.2 ;;
  Value.__add__ host acc (OValue p).

Definition __call__ (self : t) (x : activations) : M handle :=
  match x with
  | one _ => lift (Raise TypeError)
  | many xs =>
      act <- fold_M sum_step (zip (w self) xs) (b self) ;;
      Value.tanh host act
  end.

Definition parameters (self : t) : list handle :=
  w self ++ [b self].
End methods.
End Neuron.

(** ** class Layer *)

Module Layer.
Record t := mk {
  neurons : list Neuron.t;
}.

Section methods.
Context (host : Host).

Definition __init__ (nin nout : nat) : M t :=
  ns <- repeat_M nout (Neuron.__init__ host nin) ;;
  ret (mk ns).

Definition __call__ (self : t) (x : activations) : M activations :=
  outs <- map_M (λ n, Neuron.__call__ host n x) (neurons self) ;;
  ret (match outs with
       | [out] => one out
       | _ => many (OValue <$> outs)
       end).

Definition parameters (self : t) : list handle :=
  neuron ← neurons self; Neuron.parameters neuron.
End methods.
End Layer.

(** ** class MLP *)

Module MLP.
Record t := mk {
  layers : list Layer.t;
}.

Section methods.
Context (host : Host).

(** [[Layer(sz[i], sz[i+1]) for i in range(len(nouts))]] with
    [sz = [nin] + nouts] *)
Fixpoint build_layers (nin : nat) (nouts : list nat) : M (list Layer.t) :=
  match nouts with
  | [] => ret []
  | nout :: nouts =>
      l <- Layer.__init__ host nin nout ;;
      ls <- build_layers nout nouts ;;
      ret (l :: ls)
  end.

Definition __init__ (nin : nat) (nouts : list nat) : M t :=
  ls <- build_layers nin nouts ;;
  ret (mk ls).

Definition __call__ (self : t) (x : activations) : M activations :=
  fold_M (λ x layer, Layer.__call__ host layer x) (layers self) x.

Definition parameters (self : t) : list handle :=
  layer ← layers self; Layer.parameters layer.
End methods.
End MLP.

(** ** A concrete host

    A host for the closed examples: [math.exp] and the general case of [**]
    are tabulated at the arguments the examples reach (with the values of
    CPython on glibc), and report a range error elsewhere; a set is iterated
    in the order of the last occurrences of its elements. *)

Definition sample_exp (x : float) : pyresult float :=
  if (x =? 0)%float then Ok 1%float
  else if (x =? 8)%float then Ok 0x1.749ea7d470c6ep+11%float
  else Raise OverflowError.

Definition sample_pow (x y : float) : pyresult float :=
  if (y =? 1)%float then Ok x
  else if (y =? 2)%float then Ok (x * x)%float
  else if (y =? -1)%float then Ok (1 / x)%float
  else Raise OverflowError.

Definition sample_uniform (k : nat) : float :=
  if Nat.even k then 0.5%float else (-0.25)%float.

Definition sample_host : Host :=
  {| math_exp := sample_exp;
     pow_general := sample_pow;
     set_order := remove_dups;
     uniform := sample_uniform |}.

(** A host that iterates a set of two in the other order. *)
Definition sample_host' : Host :=
  {| math_exp := sample_exp;
     pow_general := sample_pow;
     set_order := λ l, reverse (remove_dups l);
     uniform := sample_uniform |}.

Definition empty_state : state := mkState [] 0.

(** ** Vocabulary of the properties *)

(** A method only allocates: the heap it leaves is the heap it found with
    new nodes appended, whether it returns or raises. *)
Definition allocates_only {A} (m : M A) : Prop :=
  ∀ s, ∃ new, (m s).2 = mkState (heap s ++ new) (draws s).

(** The closure of a node refers to the node itself as [out] and to
    predecessors of the node as [self] and [other]. *)
Definition rule_ok (v : handle) (prev : list handle) (r : rule) : Prop :=
  match r with
  | lambda_None => True
  | add_backward self other out | mul_backward self other out =>
      out = v ∧ self ∈ prev ∧ other ∈ prev
  | pow_backward self _ out | tanh_backward self _ out
  | exp_backward self out =>
      out = v ∧ self ∈ prev
  end.


Definition node_ok (v : handle) (n : Value) : Prop :=
  Forall (λ c, c < v) (previous n) ∧ rule_ok v (previous n) (_backward n).

(** A graph as the constructors build it: a node is derived from nodes that
    exist already. *)
Definition wf (hp : list Value) : Prop :=
  ∀ v n, hp !! v = Some n → node_ok v n.

(** [reachable hp u v]: [v] is [u] or an ancestor of [u] along [previous]. *)
Inductive reachable (hp : list Value) : handle → handle → Prop :=
| reachable_refl v : reachable hp v v
| reachable_step u c v :
    c ∈ previous (deref hp u) → reachable hp c v → reachable hp u v.

(** [x] occurs at an earlier position of [l] than [y]. *)
Definition before (l : list handle) (x y : handle) : Prop :=
  ∃ i j, l !! i = Some x ∧ l !! j = Some y ∧ i < j.

(** Two heaps hold the same graph: they differ in gradients only. *)
Definition same_graph (hp hp' : list Value) : Prop :=
  length hp' = length hp ∧
  ∀ v, data (deref hp' v) = data (deref hp v) ∧
       previous (deref hp' v) = previous (deref hp v) ∧
       _backward (deref hp' v) = _backward (deref hp v).

Definition leaf (x : float) : Value := mkValue x [] op_leaf 0 lambda_None.

(** The state of the traversal, while nodes below [bound] are being
    visited: [topo] holds each finished node once, after its predecessors;
    a visited node that is not finished yet is not below [bound]. *)
Record dfs_inv (hp : list Value) (root bound : handle)
    (st : gset handle * list handle) : Prop := {
  inv_nodup : NoDup st.2;
  inv_visited : ∀ v, v ∈ st.2 → v ∈ st.1;
  inv_pending : ∀ v, v ∈ st.1 → v ∈ st.2 ∨ bound ≤ v;
  inv_closed : ∀ v c, v ∈ st.2 → c ∈ previous (deref hp v) → before st.2 c v;
  inv_reach : ∀ v, v ∈ st.2 → reachable hp root v;
}.

(** What a traversal below [bound] adds to the state. *)
Definition dfs_ext (bound : handle) (st st' : gset handle * list handle)
    : Prop :=
  ∃ new, st'.2 = st.2 ++ new ∧ (∀ x, x ∈ new → x < bound) ∧
         ∀ x, x ∈ st'.1 ↔ x ∈ st.1 ∨ x ∈ new.

(** What one call of [build_topo] with enough fuel does. *)
Definition dfs_post (hp : list Value) (root : handle) (fuel : nat) : Prop :=
  ∀ v st, v < fuel → dfs_inv hp root (S v) st → reachable hp root v →
    ∃ st', Value.build_topo fuel hp v st = Some st' ∧
           dfs_inv hp root (S v) st' ∧ dfs_ext (S v) st st' ∧ v ∈ st'.2.

(** An operand that is a node is a node of the heap. *)
Definition operand_ok (other : operand) (hp : list Value) : Prop :=
  match other with
  | OValue v => v < length hp
  | ONum _ => True
  end.

(** The outcome of a method that builds a node: the graph is well formed
    and the node returned, if any, is in the heap. *)
Definition built_ok (r : pyresult handle * state) : Prop :=
  wf (heap r.2) ∧
  match r.1 with
  | Ok out => out < length (heap r.2)
  | Raise _ => True
  end.

(** A list of inputs whose nodes are in the heap. *)
Definition activations_ok (x : activations) (hp : list Value) : Prop :=
  match x with
  | one v => v < length hp
  | many xs => Forall (λ o, operand_ok o hp) xs
  end.

Definition neuron_ok (n : Neuron.t) (hp : list Value) : Prop :=
  Forall (λ v, v < length hp) (Neuron.w n) ∧ Neuron.b n < length hp.

Definition layer_ok (l : Layer.t) (hp : list Value) : Prop :=
  Forall (λ n, neuron_ok n hp) (Layer.neurons l).

(** The outcome of a forward pass: the graph is well formed and the
    outputs, if any, are in the heap. *)
Definition forward_ok (r : pyresult activations * state) : Prop :=
  wf (heap r.2) ∧
  match r.1 with
  | Ok x => activations_ok x (heap r.2)
  | Raise _ => True
  end.


(** [a = Value(2.0); b = Value(-3.0); c = Value(10.0); d = a*b + c;
    f = d.tanh(); f.backward()] *)
Definition tanh_example (host : Host) : M unit :=
  a <- Value.__init__ host 2 [] op_leaf ;;
  b <- Value.__init__ host (-3) [] op_leaf ;;
  c <- Value.__init__ host 10 [] op_leaf ;;
  m <- Value.__mul__ host a (OValue b) ;;
  d <- Value.__add__ host m (OValue c) ;;
  f <- Value.tanh host d ;;
  Value.backward host f.

(** [Layer(3, 2)([9.5, 2.0])] *)
Definition mismatch_example (host : Host) : M activations :=
  layer <- Layer.__init__ host 3 2 ;;
  Layer.__call__ host layer (many [ONum 9.5; ONum 2]).

(** [Layer(2, 1)([8.0, 2.0])] *)
Definition single_neuron_example (host : Host) : M activations :=
  layer <- Layer.__init__ host 2 1 ;;
  Layer.__call__ host layer (many [ONum 8; ONum 2]).

(** A neuron that keeps its first [k] weights. *)
Definition truncate (k : nat) (n : Neuron.t) : Neuron.t :=
  Neuron.mk (take k (Neuron.w n)) (Neuron.b n).

(** The heap after [a = Value(1.0); b = Value(0.0)]. *)
Definition two_leaves : state := mkState [leaf 1; leaf 0] 0.


(** [Layer(2, 1)] as [sample_host] builds it first. *)
Definition single_layer : Layer.t := Layer.mk [Neuron.mk [0; 1] 2].

Definition single_state : state :=
  mkState [leaf 0.5; leaf (-0.25); leaf 0.5] 3.

(** ** Vocabulary of the further properties *)

(** The number that an operand stands for. *)
Definition operand_value (hp : list Value) (o : operand) : float :=
  match o with
  | OValue v => data (deref hp v)
  | ONum x => x
  end.


(** The number of parameters of [MLP(nin, nouts)]: each neuron of a layer
    holds one weight per input and one bias. *)
Fixpoint parameter_count (nin : nat) (nouts : list nat) : nat :=
  match nouts with
  | [] => 0
  | nout :: nouts => nout * S nin + parameter_count nout nouts
  end.

(** [s'] is [s] with [k] more leaves, drawn in order from the random
    source. *)
Definition fresh_leaves (host : Host) (k : nat) (s s' : state) : Prop :=
  heap s' = heap s ++ ((λ i, mkValue (uniform host (draws s + i))
                               (set_order host []) op_leaf 0 lambda_None)
                       <$> seq 0 k) ∧
  draws s' = draws s + k.

(** [b + w1*x1 + ... + wk*xk], summed from the left as [sum] does, over the
    pairs that [zip] yields. *)
Definition weighted_sum (hp : list Value) (ws : list handle)
    (xs : list operand) (b : handle) : float :=
  fold_left (λ acc wx, (acc + data (deref hp wx.1) * operand_value hp wx.2)%float)
    (zip ws xs) (data (deref hp b)).

Definition with_data (x : float) (v : Value) : Value :=
  mkValue x (previous v) (operation v) (gradient v) (_backward v).

(** The two loops of the training script over [n.parameters()]:
    [p.gradient = 0.0] before the backward pass, and
    [p.data += -0.1 * p.gradient] after it. *)
Definition zero_gradients (ps : list handle) : M unit :=
  for_each (write (with_gradient 0)) ps.

Definition learning_step : float := (- 0x1.999999999999ap-4)%float.

Definition update (ps : list handle) : M unit :=
  for_each (λ p, d <- read data p ;;
                 g <- read gradient p ;;
                 write (with_data (d + learning_step * g)) p) ps.

(** * Properties *)

(** ** Floating-point identities *)

Lemma bounded_canonical m e :
  bounded prec emax m e = true →
  fexp prec emax (Z.pos (digits2_pos m) + e) = e ∧ (e <=? emax - prec)%Z = true.
Proof.
  unfold bounded, canonical_mantissa. intros H.
  apply andb_prop in H as [H1 H2]. split; [by apply Z.eqb_eq|done].
Qed.

Lemma shift_52 (m : positive) :
  (4503599627370496 * m)%positive = Pos.iter xO m 52.
Proof. simpl. first [by rewrite Pos.mul_1_l | done]. Qed.

(** A product whose significand is that of [m] shifted by 52 bits rounds
    back to [m]. *)
Lemma round_times_one s m e :
  bounded prec emax m e = true →
  binary_round_aux prec emax s (Z.pos (Pos.iter xO m 52)) (e - 52) loc_Exact
  = S754_finite s m e.
Proof.
  intros [Hc Hb]%bounded_canonical.
  unfold binary_round_aux, shr_fexp.
  assert (Hd : Zdigits2 (Z.pos (Pos.iter xO m 52))
               = (Z.pos (digits2_pos m) + 52)%Z).
  { simpl. rewrite !Pos2Z.inj_succ. lia. }
  rewrite Hd.
  replace (Z.pos (digits2_pos m) + 52 + (e - 52))%Z
    with (Z.pos (digits2_pos m) + e)%Z by lia.
  rewrite Hc. replace (e - (e - 52))%Z with 52%Z by lia.
  simpl. replace (e - 52 + 52)%Z with e by lia.
  rewrite Hc, Z.sub_diag. simpl. by rewrite Hb.
Qed.

Lemma float_mul_1_l (x : float) : (1 * x)%float = x.
Proof.
  apply Prim2SF_inj. rewrite mul_spec.
  pose proof (Prim2SF_valid x) as Hv.
  change (Prim2SF 1) with (S754_finite false 4503599627370496 (-52)).
  destruct (Prim2SF x) as [s|s| |s m e]; try done.
  unfold SF64mul, SFmul. replace (-52 + e)%Z with (e - 52)%Z by lia.
  rewrite shift_52. by apply round_times_one.
Qed.

Lemma float_mul_1_r (x : float) : (x * 1)%float = x.
Proof.
  apply Prim2SF_inj. rewrite mul_spec.
  pose proof (Prim2SF_valid x) as Hv.
  change (Prim2SF 1) with (S754_finite false 4503599627370496 (-52)).
  destruct (Prim2SF x) as [s|s| |s m e]; simpl; rewrite ?xorb_false_r; try done.
  rewrite Pos.mul_comm, shift_52. replace (e + -52)%Z with (e - 52)%Z by lia.
  by apply round_times_one.
Qed.

Lemma float_negzero_dec (x : float) :
  x = (-0)%float ∨ ∀ s, Prim2SF x = S754_zero s → s = false.
Proof.
  destruct (Prim2SF x) as [[]|s| |s m e] eqn:E; try (right; intros; congruence).
  left. rewrite <- (SF2Prim_Prim2SF x), E. reflexivity.
Qed.

Lemma float_add_0_l (x : float) :
  (∀ s, Prim2SF x = S754_zero s → s = false) → (0 + x)%float = x.
Proof.
  intros Hx. apply Prim2SF_inj. rewrite add_spec.
  change (Prim2SF 0) with (S754_zero false).
  destruct (Prim2SF x) as [s|s| |s m e]; simpl; try done.
  by rewrite (Hx s).
Qed.

Lemma float_eqb_refl (x : float) : is_nan x = false → (x =? x)%float = true.
Proof. unfold is_nan. by intros ->%negb_false_iff. Qed.

Lemma float_add_0_l_eqb (x : float) :
  is_nan x = false → (0 + x =? x)%float = true.
Proof.
  intros Hx. destruct (float_negzero_dec x) as [->|H]; [done|].
  rewrite float_add_0_l by done. by apply float_eqb_refl.
Qed.

Lemma float_add_0_l_idem (x : float) : (0 + (0 + x))%float = (0 + x)%float.
Proof.
  destruct (float_negzero_dec x) as [->|H]; [done|].
  rewrite (float_add_0_l x) by done. by apply float_add_0_l.
Qed.

(** Rounding never produces a NaN. *)
Lemma shr_1_nonneg r : (0 ≤ shr_m r)%Z → (0 ≤ shr_m (shr_1 r))%Z.
Proof. destruct r as [[|[p|p|]|[p|p|]] r s]; simpl; lia. Qed.

Lemma iter_shr_1_nonneg n r :
  (0 ≤ shr_m r)%Z → (0 ≤ shr_m (SpecFloat.iter_pos shr_1 n r))%Z.
Proof.
  revert r. induction n as [n IH|n IH|]; intros r Hr; simpl.
  - by apply IH, IH, shr_1_nonneg.
  - by apply IH, IH.
  - by apply shr_1_nonneg.
Qed.

Lemma shr_fexp_nonneg m e l :
  (0 ≤ m)%Z → (0 ≤ shr_m (shr_fexp prec emax m e l).1)%Z.
Proof.
  intros Hm. unfold shr_fexp, shr.
  assert (0 ≤ shr_m (shr_record_of_loc m l))%Z by (by destruct l as [|[]]).
  destruct (_ - e)%Z; simpl; try done. by apply iter_shr_1_nonneg.
Qed.

Lemma binary_round_aux_not_nan s m e l :
  (0 ≤ m)%Z → binary_round_aux prec emax s m e l ≠ S754_nan.
Proof.
  intros Hm. unfold binary_round_aux.
  pose proof (shr_fexp_nonneg m e l Hm) as H1.
  destruct (shr_fexp prec emax m e l) as [mrs1 e1]. simpl in H1.
  set (m1 := round_nearest_even _ _).
  assert (0 ≤ m1)%Z as Hm1.
  { unfold m1, round_nearest_even.
    destruct (loc_of_shr_record mrs1) as [|[]]; try lia.
    destruct (Z.even _); lia. }
  pose proof (shr_fexp_nonneg m1 e1 loc_Exact Hm1) as H2.
  destruct (shr_fexp prec emax m1 e1 loc_Exact) as [mrs2 e2]. simpl in H2.
  destruct (shr_m mrs2); [done| |lia]. by destruct (_ <=? _)%Z.
Qed.

Lemma binary_normalize_not_nan m e sz :
  binary_normalize prec emax m e sz ≠ S754_nan.
Proof.
  destruct m as [|p|p]; simpl; [done| |]; unfold binary_round;
    destruct (shl_align _ _ _); by apply binary_round_aux_not_nan.
Qed.

Lemma SFcompare_refl_finite s m e :
  SFcompare (S754_finite s m e) (S754_finite s m e) = Some Eq.
Proof.
  simpl. rewrite Z.compare_refl.
  assert (Pos.compare_cont Eq m m = Eq) as -> by apply Pos.compare_cont_refl.
  by destruct s.
Qed.

Lemma float_is_nan_spec (x : float) : is_nan x = true ↔ Prim2SF x = S754_nan.
Proof.
  unfold is_nan. rewrite FloatAxioms.eqb_spec. unfold SFeqb.
  destruct (Prim2SF x) as [s|[]| |s m e]; try rewrite SFcompare_refl_finite;
    simpl; split; congruence.
Qed.

Lemma float_not_nan (x : float) : is_nan x = false ↔ Prim2SF x ≠ S754_nan.
Proof.
  pose proof (float_is_nan_spec x) as [H1 H2].
  destruct (is_nan x); split; try done.
  - intros H. exfalso. by apply H, H1.
  - intros _ H. by apply H2 in H.
Qed.

Lemma float_sub_1_not_nan (p : float) :
  is_nan p = false → is_nan (1 - p)%float = false.
Proof.
  rewrite !float_not_nan, sub_spec.
  change (Prim2SF 1) with (S754_finite false 4503599627370496 (-52)).
  destruct (Prim2SF p) as [s|s| |s m e]; simpl; try done.
  intros _. apply binary_normalize_not_nan.
Qed.

Lemma float_mul_finite_not_nan (c x : float) s m e :
  Prim2SF c = S754_finite s m e →
  is_nan x = false → is_nan (c * x)%float = false.
Proof.
  intros Hc. rewrite !float_not_nan, mul_spec, Hc.
  destruct (Prim2SF x) as [s'|s'| |s' m' e']; simpl; try done.
  intros _. by apply binary_round_aux_not_nan.
Qed.

(** ** The heap *)

Lemma deref_app_l hp l v : v < length hp → deref (hp ++ l) v = deref hp v.
Proof. intros Hv. unfold deref. by rewrite lookup_app_l. Qed.

Lemma deref_app_new hp x l : deref (hp ++ x :: l) (length hp) = x.
Proof. unfold deref. by rewrite list_lookup_middle. Qed.

Lemma deref_lookup hp v n : hp !! v = Some n → deref hp v = n.
Proof. unfold deref. by intros ->. Qed.

Lemma deref_alter_ne f v hp u : u ≠ v → deref (alter f v hp) u = deref hp u.
Proof. intros Hne. unfold deref. by rewrite list_lookup_alter_ne. Qed.

Lemma deref_alter_eq f v hp :
  v < length hp → deref (alter f v hp) v = f (deref hp v).
Proof.
  intros [n Hn]%lookup_lt_is_Some. unfold deref.
  by rewrite list_lookup_alter_eq, Hn.
Qed.

Lemma alter_new f (hp : list Value) x :
  alter f (length hp) (hp ++ [x]) = hp ++ [f x].
Proof.
  replace (length hp) with (length hp + 0) by lia. by rewrite alter_app_r.
Qed.

(** The node that an operation allocates and then equips with its closure. *)
Lemma new_node host d ch op (r : handle → rule) s :
  (out <- Value.__init__ host d ch op ;;
   write (with_backward (r out)) out ;;; ret out) s
  = (Ok (length (heap s)),
     mkState (heap s ++ [mkValue d (set_order host ch) op 0 (r (length (heap s)))])
             (draws s)).
Proof.
  unfold Value.__init__, alloc, write, bind, ret. simpl.
  by rewrite alter_new.
Qed.

Lemma deref_alter_ge f v hp u :
  length hp ≤ v → deref (alter f v hp) u = deref hp u.
Proof.
  intros Hv. destruct (decide (u = v)) as [->|Hne].
  - unfold deref. rewrite !lookup_ge_None_2; [done|done|].
    by rewrite length_alter.
  - by apply deref_alter_ne.
Qed.

(** ** Forward operations only allocate *)

Section allocates.
Context (host : Host).

Lemma allocates_ret {A} (a : A) : allocates_only (ret a).
Proof. intros [hp k]. exists []. simpl. by rewrite app_nil_r. Qed.

Lemma allocates_lift {A} (r : pyresult A) : allocates_only (lift r).
Proof. intros [hp k]. exists []. simpl. by rewrite app_nil_r. Qed.

Lemma allocates_read {A} (f : Value → A) v : allocates_only (read f v).
Proof. intros [hp k]. exists []. simpl. by rewrite app_nil_r. Qed.

Lemma allocates_bind {A B} (m : M A) (k : A → M B) :
  allocates_only m → (∀ a, allocates_only (k a)) → allocates_only (bind m k).
Proof.
  intros Hm Hk s. unfold bind. destruct (Hm s) as [new1 H1].
  destruct (m s) as [[a|e] s1]; simpl in H1; subst s1.
  - destruct (Hk a (mkState (heap s ++ new1) (draws s))) as [new2 H2].
    exists (new1 ++ new2). rewrite H2. simpl. by rewrite app_assoc.
  - by exists new1.
Qed.

Lemma allocates_init d ch op : allocates_only (Value.__init__ host d ch op).
Proof. intros s. by eexists [_]. Qed.

Lemma allocates_new_node d ch op (r : handle → rule) :
  allocates_only (out <- Value.__init__ host d ch op ;;
                  write (with_backward (r out)) out ;;; ret out).
Proof. intros s. rewrite new_node. by eexists [_]. Qed.

Lemma allocates_coerce other : allocates_only (Value.coerce host other).
Proof. destruct other; [apply allocates_ret|apply allocates_init]. Qed.

Create HintDb allocates.
Local Hint Resolve allocates_ret allocates_lift allocates_read
  allocates_coerce : allocates.

Lemma allocates_add self other : allocates_only (Value.__add__ host self other).
Proof.
  unfold Value.__add__.
  repeat (apply allocates_bind; [solve [auto with allocates]|intros ?]).
  apply (allocates_new_node _ _ _ (λ out, add_backward _ _ out)).
Qed.

Lemma allocates_mul self other : allocates_only (Value.__mul__ host self other).
Proof.
  unfold Value.__mul__.
  repeat (apply allocates_bind; [solve [auto with allocates]|intros ?]).
  apply (allocates_new_node _ _ _ (λ out, mul_backward _ _ out)).
Qed.

Lemma allocates_pow self other : allocates_only (Value.__pow__ host self other).
Proof.
  unfold Value.__pow__. destruct (as_number other); [|apply allocates_lift].
  repeat (apply allocates_bind; [solve [auto with allocates]|intros ?]).
  apply (allocates_new_node _ _ _ (λ out, pow_backward _ _ out)).
Qed.

Lemma allocates_neg self : allocates_only (Value.__neg__ host self).
Proof. apply allocates_mul. Qed.

Lemma allocates_sub self other : allocates_only (Value.__sub__ host self other).
Proof.
  destruct other; simpl; [|apply allocates_add].
  apply allocates_bind; [apply allocates_neg|intros; apply allocates_add].
Qed.

Lemma allocates_truediv self other :
  allocates_only (Value.__truediv__ host self other).
Proof.
  destruct other; simpl;
    (apply allocates_bind;
     [first [apply allocates_pow|apply allocates_lift]
     |intros; apply allocates_mul]).
Qed.

Lemma allocates_tanh self : allocates_only (Value.tanh host self).
Proof.
  unfold Value.tanh.
  repeat (apply allocates_bind; [solve [auto with allocates]|intros ?]).
  apply (allocates_new_node _ _ _ (λ out, tanh_backward _ _ out)).
Qed.

Lemma allocates_exp self : allocates_only (Value.exp host self).
Proof.
  unfold Value.exp.
  repeat (apply allocates_bind; [solve [auto with allocates]|intros ?]).
  apply (allocates_new_node _ _ _ (λ out, exp_backward _ out)).
Qed.

(** What [allocates_only] means for the nodes that exist already. *)
Lemma allocates_only_frame {A} (m : M A) s v n :
  allocates_only m → heap s !! v = Some n → heap (m s).2 !! v = Some n.
Proof.
  intros Hm Hv. destruct (Hm s) as [new ->]. simpl.
  rewrite lookup_app_l; [done|]. by eapply lookup_lt_Some.
Qed.

Lemma topo_of_leaf hp v :
  previous (deref hp v) = [] → Value.topo_of hp v = Some [v].
Proof.
  intros Hp. unfold Value.topo_of. simpl.
  rewrite decide_False by set_solver. by rewrite Hp.
Qed.

Lemma backward_leaf s v :
  previous (deref (heap s) v) = [] →
  _backward (deref (heap s) v) = lambda_None →
  Value.backward host v s
  = (Ok tt, mkState (alter (with_gradient 1) v (heap s)) (draws s)).
Proof.
  intros Hp Hr. unfold Value.backward. rewrite topo_of_leaf by done.
  cbv [bind write Value.call_backward read for_each ret reverse rev_append].
  simpl.
  destruct (decide (v < length (heap s))) as [Hv|Hv].
  - rewrite deref_alter_eq by done. simpl. by rewrite Hr.
  - rewrite deref_alter_ge by lia. by rewrite Hr.
Qed.
End allocates.

(** ** The local rules *)

Section rules.
Context (host : Host).

Lemma accumulate_fields x n :
  data (accumulate x n) = data n ∧ previous (accumulate x n) = previous n ∧
  _backward (accumulate x n) = _backward n.
Proof. done. Qed.

Lemma add_eq a b s :
  Value.__add__ host a (OValue b) s
  = (Ok (length (heap s)),
     mkState (heap s ++
       [mkValue (data (deref (heap s) a) + data (deref (heap s) b))
          (set_order host [a; b]) op_add 0
          (add_backward a b (length (heap s)))]) (draws s)).
Proof.
  rewrite <- (new_node host _ _ _ (λ out, add_backward a b out)). reflexivity.
Qed.

Lemma mul_eq a b s :
  Value.__mul__ host a (OValue b) s
  = (Ok (length (heap s)),
     mkState (heap s ++
       [mkValue (data (deref (heap s) a) * data (deref (heap s) b))
          (set_order host [a; b]) op_mul 0
          (mul_backward a b (length (heap s)))]) (draws s)).
Proof.
  rewrite <- (new_node host _ _ _ (λ out, mul_backward a b out)). reflexivity.
Qed.

Lemma gradient_after_accumulate x a hp out :
  out ≠ a → gradient (deref (alter (accumulate x) a hp) out)
            = gradient (deref hp out).
Proof. intros. by rewrite deref_alter_ne. Qed.

Lemma data_after_accumulate x a hp v :
  data (deref (alter (accumulate x) a hp) v) = data (deref hp v).
Proof.
  destruct (decide (v = a)) as [->|]; [|by rewrite deref_alter_ne].
  destruct (decide (a < length hp)).
  - by rewrite deref_alter_eq.
  - by rewrite deref_alter_ge by lia.
Qed.


Lemma call_mul a b out st :
  out ≠ a →
  Value.call host (mul_backward a b out) st
  = (Ok tt,
     mkState
       (alter (accumulate (data (deref (heap st) a)
                           * gradient (deref (heap st) out))) b
          (alter (accumulate (data (deref (heap st) b)
                              * gradient (deref (heap st) out))) a
             (heap st))) (draws st)).
Proof.
  intros Hne. cbv [Value.call bind read iadd_gradient write]. simpl.
  by rewrite gradient_after_accumulate, data_after_accumulate.
Qed.


(** ** Powers and division *)

Lemma pow_zero_neg x :
  (x =? 0)%float = true → Value.pow host x (Int (-1)) = Raise ZeroDivisionError.
Proof.
  intros Hx. unfold Value.pow.
  change (to_float (Int (-1))) with (Ok (-1)%float).
  unfold Value.float_pow. by rewrite Hx.
Qed.

(** C6, as amended: when [b.data == 0], [a / b] raises [ZeroDivisionError]
    at the call, from [b.data ** -1], and leaves the heap as it was: no node
    is built and no infinite or NaN value is produced. *)
Theorem truediv_zero s a b :
  (data (deref (heap s) b) =? 0)%float = true →
  Value.__truediv__ host a (OValue b) s = (Raise ZeroDivisionError, s).
Proof.
  intros Hb. cbv [Value.__truediv__ Value.__pow__ bind read lift as_number].
  by rewrite pow_zero_neg.
Qed.

Lemma pow_eq a n s v :
  Value.pow host (data (deref (heap s) a)) n = Ok v →
  (a0 <- read data a ;;
   p <- lift (Value.pow host a0 n) ;;
   out <- Value.__init__ host p [a] (op_pow n) ;;
   write (with_backward (pow_backward a n out)) out ;;; ret out) s
  = (Ok (length (heap s)),
     mkState (heap s ++ [mkValue v (set_order host [a]) (op_pow n) 0
                           (pow_backward a n (length (heap s)))]) (draws s)).
Proof.
  intros Hv. rewrite <- (new_node host _ _ _ (λ out, pow_backward a n out)).
  unfold bind at 1. unfold read at 1. unfold bind at 1. unfold lift at 1.
  by rewrite Hv.
Qed.

End rules.

(** ** The traversal *)

Lemma before_app_l l k x y : before l x y → before (l ++ k) x y.
Proof.
  intros (i & j & Hi & Hj & Hij). exists i, j.
  split_and!; [by apply lookup_app_l_Some..|done].
Qed.

Lemma before_snoc l x y : x ∈ l → before (l ++ [y]) x y.
Proof.
  intros (i & Hi)%list_elem_of_lookup. exists i, (length l).
  split_and!.
  - by apply lookup_app_l_Some.
  - by rewrite list_lookup_middle.
  - by eapply lookup_lt_Some.
Qed.

Lemma before_elem_of l x y : before l x y → x ∈ l ∧ y ∈ l.
Proof.
  intros (i & j & Hi & Hj & _). split; by eapply list_elem_of_lookup_2.
Qed.



Lemma reachable_snoc hp u v c :
  reachable hp u v → c ∈ previous (deref hp v) → reachable hp u c.
Proof.
  induction 1 as [v|u c' v Hc' _ IH]; intros Hc.
  - eapply reachable_step; [done|constructor].
  - eapply reachable_step; [done|by apply IH].
Qed.

Section traversal.
Context (hp : list Value) (Hwf : wf hp) (root : handle).

Lemma wf_previous v c : c ∈ previous (deref hp v) → c < v ∧ v < length hp.
Proof.
  unfold deref. destruct (hp !! v) as [n|] eqn:Hn; simpl; [|by intros ?%elem_of_nil].
  intros Hc. destruct (Hwf v n Hn) as [Hlt _]. split.
  - by eapply Forall_forall in Hlt.
  - by eapply lookup_lt_Some.
Qed.

Lemma dfs_inv_mono b b' st :
  b' ≤ b → dfs_inv hp root b st → dfs_inv hp root b' st.
Proof.
  intros Hb [H1 H2 H3 H4 H5]. split; try done.
  intros v Hv. destruct (H3 v Hv); [by left|right; lia].
Qed.

Lemma dfs_ext_refl b st : dfs_ext b st st.
Proof.
  exists []. rewrite app_nil_r. split_and!; [done|by intros ? ?%elem_of_nil|].
  intros x. split; [by left|]. by intros [?|?%elem_of_nil].
Qed.

Lemma dfs_ext_trans b1 b2 b st1 st2 st3 :
  b1 ≤ b → b2 ≤ b →
  dfs_ext b1 st1 st2 → dfs_ext b2 st2 st3 → dfs_ext b st1 st3.
Proof.
  intros Hb1 Hb2 (n1 & E1 & L1 & V1) (n2 & E2 & L2 & V2).
  exists (n1 ++ n2). split_and!.
  - by rewrite E2, E1, app_assoc.
  - intros x [Hx|Hx]%elem_of_app; [apply L1 in Hx|apply L2 in Hx]; lia.
  - intros x. rewrite V2, V1, elem_of_app. tauto.
Qed.

(** The invariant of the caller survives a traversal that kept its own. *)
Lemma dfs_inv_transfer b b1 b2 st st' :
  dfs_inv hp root b st → dfs_inv hp root b1 st' → dfs_ext b2 st st' →
  dfs_inv hp root b st'.
Proof.
  intros [_ _ H3 _ _] [G1 G2 _ G4 G5] (new & E & _ & V). split; try done.
  intros v [Hv|Hv]%V.
  - destruct (H3 v Hv) as [Ht|?]; [left|by right].
    rewrite E. apply elem_of_app. by left.
  - left. rewrite E. apply elem_of_app. by right.
Qed.

Lemma for_children_inv fuel v :
  dfs_post hp root fuel → v ≤ fuel →
  ∀ cs st,
    (∀ c, c ∈ cs → c < v ∧ reachable hp root c) →
    dfs_inv hp root v st → v ∉ st.2 →
    ∃ st', Value.for_children (Value.build_topo fuel hp) cs st = Some st' ∧
           dfs_inv hp root v st' ∧ (v ∉ st'.2) ∧ dfs_ext v st st' ∧
           ∀ c, c ∈ cs → c ∈ st'.2.
Proof.
  intros IH Hv. induction cs as [|c cs IHcs]; intros st Hcs Hinv Hnot.
  - exists st. split_and!; try done; [apply dfs_ext_refl|by intros ? ?%elem_of_nil].
  - destruct (Hcs c) as [Hc Hrc]; [by left|].
    destruct (IH c st) as (st1 & E1 & Hinv1 & Hext1 & Hc1);
      [lia|by eapply dfs_inv_mono|done|].
    assert (dfs_inv hp root v st1) as Hinv1' by (by eapply dfs_inv_transfer).
    assert (v ∉ st1.2) as Hnot1.
    { destruct Hext1 as (new & E & L & _). rewrite E.
      intros [?|Hn]%elem_of_app; [done|]. apply L in Hn. lia. }
    destruct (IHcs st1) as (st2 & E2 & Hinv2 & Hnot2 & Hext2 & Hcs2);
      [by intros; apply Hcs; right|done|done|].
    exists st2. simpl. rewrite E1. split_and!; try done.
    + eapply dfs_ext_trans; [| |done|done]; lia.
    + intros c' [->|Hc']%elem_of_cons; [|by apply Hcs2].
      destruct Hext2 as (new & E & _). rewrite E. apply elem_of_app. by left.
Qed.

Lemma build_topo_inv fuel : dfs_post hp root fuel.
Proof.
  induction fuel as [|fuel IH]; intros v st Hv Hinv Hreach; [lia|].
  simpl. destruct (decide (v ∈ st.1)) as [Hin|Hnin].
  - exists st. split_and!; [done|done|apply dfs_ext_refl|].
    destruct (inv_pending _ _ _ _ Hinv v Hin); [done|lia].
  - destruct Hinv as [H1 H2 H3 H4 H5].
    assert (v ∉ st.2) as Hnot by (by intros ?%H2).
    destruct (for_children_inv fuel v IH ltac:(lia)
                (previous (deref hp v)) ({[v]} ∪ st.1, st.2))
      as (st1 & E1 & Hinv1 & Hnot1 & (new & E & L & V) & Hcs1).
    + intros c Hc. split; [by apply wf_previous in Hc as [? _]|].
      by eapply reachable_snoc.
    + split; simpl; try done.
      * intros x Hx. apply elem_of_union. right. by apply H2.
      * intros x [Hx|Hx]%elem_of_union;
          [apply elem_of_singleton in Hx as ->; right; lia|].
        destruct (H3 x Hx); [by left|right; lia].
    + done.
    + rewrite E1. eexists. split; [done|]. simpl in *.
      destruct Hinv1 as [G1 G2 G3 G4 G5]. split_and!.
      * split; simpl.
        -- apply NoDup_app. split_and!; [done| |apply NoDup_singleton].
           intros x Hx Hv'. apply list_elem_of_singleton in Hv' as ->. done.
        -- intros x [Hx|Hx]%elem_of_app; [by apply G2|].
           apply list_elem_of_singleton in Hx as ->.
           apply V. left. apply elem_of_union. left. by apply elem_of_singleton.
        -- intros x Hx. destruct (G3 x Hx) as [?|Hle].
           ++ left. apply elem_of_app. by left.
           ++ destruct (decide (x = v)) as [->|].
              ** left. apply elem_of_app. right.
                 by apply list_elem_of_singleton.
              ** right. lia.
        -- intros x c [Hx|Hx]%elem_of_app Hc.
           ++ by apply before_app_l, G4.
           ++ apply list_elem_of_singleton in Hx as ->.
              by apply before_snoc, Hcs1.
        -- intros x [Hx|Hx]%elem_of_app; [by apply G5|].
           by apply list_elem_of_singleton in Hx as ->.
      * exists (new ++ [v]). split_and!.
        -- by rewrite E, app_assoc.
        -- intros x [Hx|Hx]%elem_of_app.
           ++ apply L in Hx. lia.
           ++ apply list_elem_of_singleton in Hx as ->. lia.
        -- intros x. rewrite V, elem_of_app, elem_of_union,
             elem_of_singleton, list_elem_of_singleton. tauto.
      * apply elem_of_app. right. by apply list_elem_of_singleton.
Qed.

Lemma topo_of_spec :
  root < length hp →
  ∃ topo, Value.topo_of hp root = Some topo ∧ NoDup topo ∧
    (∀ v, v ∈ topo ↔ reachable hp root v) ∧
    (∀ v c, v ∈ topo → c ∈ previous (deref hp v) → before topo c v).
Proof.
  intros Hroot. unfold Value.topo_of.
  destruct (build_topo_inv (S (length hp)) root (∅, []))
    as (st & E & [H1 H2 H3 H4 H5] & _ & Hin); [lia| |constructor|].
  { split; simpl; intros; first [by apply NoDup_nil|set_solver]. }
  rewrite E. exists st.2. split_and!; try done.
  intros v. split; [by apply H5|].
  assert (∀ u w, reachable hp u w → u ∈ st.2 → w ∈ st.2) as Hclosed.
  { induction 1 as [w|u c w Hc _ IH]; intros Hu; [done|].
    apply IH. by destruct (before_elem_of _ _ _ (H4 u c Hu Hc)). }
  intros Hv. by eapply Hclosed.
Qed.
End traversal.

(** ** Running the closures *)

Lemma same_graph_refl hp : same_graph hp hp.
Proof. by split. Qed.

Lemma same_graph_trans hp1 hp2 hp3 :
  same_graph hp1 hp2 → same_graph hp2 hp3 → same_graph hp1 hp3.
Proof.
  intros [L1 F1] [L2 F2]. split; [congruence|].
  intros v. destruct (F1 v) as (?&?&?), (F2 v) as (?&?&?).
  split_and!; congruence.
Qed.

Lemma same_graph_alter (f : Value → Value) v hp :
  (∀ n, data (f n) = data n ∧ previous (f n) = previous n ∧
        _backward (f n) = _backward n) →
  same_graph hp (alter f v hp).
Proof.
  intros Hf. split; [by rewrite length_alter|]. intros u.
  destruct (decide (u = v)) as [->|]; [|by rewrite deref_alter_ne].
  destruct (decide (v < length hp)).
  - rewrite deref_alter_eq by done. apply Hf.
  - by rewrite deref_alter_ge by lia.
Qed.

Lemma same_graph_accumulate x v hp : same_graph hp (alter (accumulate x) v hp).
Proof. by apply same_graph_alter. Qed.

Lemma same_graph_with_gradient x v hp :
  same_graph hp (alter (with_gradient x) v hp).
Proof. by apply same_graph_alter. Qed.

Section run.
Context (host : Host).



Lemma for_each_cons {A} (f : A → M unit) x l s :
  for_each f (x :: l) s
  = match f x s with
    | (Ok _, s1) => for_each f l s1
    | (Raise e, s1) => (Raise e, s1)
    end.
Proof. reflexivity. Qed.

Lemma call_backward_eq u st :
  Value.call_backward host u st
  = Value.call host (_backward (deref (heap st) u)) st.
Proof. reflexivity. Qed.


End run.


(** ** The graph is well formed by construction *)

Lemma wf_nil : wf [].
Proof. by intros v n ?. Qed.

Lemma wf_snoc hp n : wf hp → node_ok (length hp) n → wf (hp ++ [n]).
Proof.
  intros Hwf Hn v m Hv. apply lookup_app_Some in Hv as [Hv|[Hge Hv]].
  - by apply Hwf.
  - destruct (v - length hp) as [|k] eqn:Hk; simpl in Hv; [|done].
    assert (v = length hp) as -> by lia. by simplify_eq.
Qed.

Lemma node_ok_leaf v x : node_ok v (leaf x).
Proof. by split. Qed.

Section construction.
Context (host : Host) (Hhost : host_ok host).

Lemma set_order_elem_of l x : x ∈ set_order host l ↔ x ∈ l.
Proof. apply Hhost. Qed.

Lemma set_order_nil : set_order host [] = [].
Proof.
  destruct (set_order host []) as [|x l] eqn:E; [done|].
  assert (x ∈ set_order host []) as Hx by (rewrite E; by left).
  by apply set_order_elem_of, elem_of_nil in Hx.
Qed.

Lemma wf_new_node d ch op (r : handle → rule) s :
  wf (heap s) →
  (∀ c, c ∈ ch → c < length (heap s)) →
  rule_ok (length (heap s)) (set_order host ch) (r (length (heap s))) →
  built_ok ((out <- Value.__init__ host d ch op ;;
             write (with_backward (r out)) out ;;; ret out) s).
Proof.
  intros Hwf Hch Hr. rewrite new_node. split; simpl.
  - apply wf_snoc; [done|]. split; [|exact Hr]. simpl.
    apply Forall_forall. intros c Hc.
    apply (proj1 (set_order_elem_of _ _)) in Hc. by apply Hch.
  - rewrite length_app. simpl. lia.
Qed.

Lemma coerce_ok other s :
  wf (heap s) → operand_ok other (heap s) →
  ∃ v s', Value.coerce host other s = (Ok v, s') ∧ wf (heap s') ∧
          v < length (heap s') ∧ length (heap s) ≤ length (heap s') ∧
          ∀ u, u < length (heap s) → deref (heap s') u = deref (heap s) u.
Proof.
  intros Hwf Ho. destruct other as [v|x]; simpl.
  - exists v, s. by split_and!.
  - eexists _, _. split; [done|]. simpl. rewrite set_order_nil, length_app.
    simpl. split_and!; [|lia..|].
    + apply wf_snoc; [done|]. apply node_ok_leaf.
    + intros u Hu. by apply deref_app_l.
Qed.

Lemma elem_of_pair (x a b : handle) : x ∈ [a; b] ↔ x = a ∨ x = b.
Proof. rewrite elem_of_cons, list_elem_of_singleton. tauto. Qed.

Lemma add_ok self other s :
  wf (heap s) → self < length (heap s) → operand_ok other (heap s) →
  built_ok (Value.__add__ host self other s).
Proof.
  intros Hwf Hself Ho.
  destruct (coerce_ok other s Hwf Ho) as (v & s' & E & Hwf' & Hv & Hle & _).
  unfold Value.__add__. unfold bind at 1. rewrite E.
  apply (wf_new_node _ _ _ (λ out, add_backward self v out)); [done| |].
  - intros c [->| ->]%elem_of_pair; lia.
  - simpl. rewrite !set_order_elem_of, !elem_of_pair. tauto.
Qed.

Lemma mul_ok self other s :
  wf (heap s) → self < length (heap s) → operand_ok other (heap s) →
  built_ok (Value.__mul__ host self other s).
Proof.
  intros Hwf Hself Ho.
  destruct (coerce_ok other s Hwf Ho) as (v & s' & E & Hwf' & Hv & Hle & _).
  unfold Value.__mul__. unfold bind at 1. rewrite E.
  apply (wf_new_node _ _ _ (λ out, mul_backward self v out)); [done| |].
  - intros c [->| ->]%elem_of_pair; lia.
  - simpl. rewrite !set_order_elem_of, !elem_of_pair. tauto.
Qed.

Lemma pow_ok self other s :
  wf (heap s) → self < length (heap s) →
  built_ok (Value.__pow__ host self other s).
Proof.
  intros Hwf Hself. unfold Value.__pow__.
  destruct (as_number other) as [n|]; [|done].
  unfold bind at 1, read at 1. unfold bind at 1, lift at 1.
  destruct (Value.pow host _ n) as [p|e]; [|done].
  apply (wf_new_node _ _ _ (λ out, pow_backward self n out)); [done| |].
  - by intros c ->%list_elem_of_singleton.
  - simpl. rewrite set_order_elem_of, list_elem_of_singleton. tauto.
Qed.

Lemma neg_ok self s :
  wf (heap s) → self < length (heap s) → built_ok (Value.__neg__ host self s).
Proof. intros. by apply mul_ok. Qed.

Lemma built_ok_bind (m : M handle) (k : handle → M handle) s :
  built_ok (m s) →
  (∀ v s', m s = (Ok v, s') → built_ok (k v s')) →
  built_ok ((v <- m ;; k v) s).
Proof.
  intros Hm Hk. unfold bind.
  destruct (m s) as [[v|e] s'] eqn:E; [by apply Hk|done].
Qed.

Lemma length_after {A} (m : M A) s :
  allocates_only m → length (heap s) ≤ length (heap (m s).2).
Proof. intros Hm. destruct (Hm s) as [new ->]. simpl. rewrite length_app. lia. Qed.

Lemma sub_ok self other s :
  wf (heap s) → self < length (heap s) → operand_ok other (heap s) →
  built_ok (Value.__sub__ host self other s).
Proof.
  intros Hwf Hself Ho. destruct other as [v|x]; simpl; [|by apply add_ok].
  apply built_ok_bind; [by apply neg_ok|].
  intros n s' E. pose proof (neg_ok v s Hwf Ho) as [Hwf' Hn].
  pose proof (length_after _ s (allocates_neg host v)) as Hle.
  rewrite E in Hwf', Hn, Hle. simpl in *. apply add_ok; [done|lia|done].
Qed.

Lemma truediv_ok self other s :
  wf (heap s) → self < length (heap s) → operand_ok other (heap s) →
  built_ok (Value.__truediv__ host self other s).
Proof.
  intros Hwf Hself Ho. destruct other as [v|x]; simpl.
  - apply built_ok_bind; [by apply pow_ok|].
    intros r s' E. pose proof (pow_ok v (PyInt (-1)) s Hwf Ho) as [Hwf' Hr].
    pose proof (length_after _ s (allocates_pow host v (PyInt (-1)))) as Hle.
    rewrite E in Hwf', Hr, Hle. simpl in *. apply mul_ok; [done|lia|done].
  - unfold bind, lift.
    destruct (Value.pow host x (Int (-1))) as [r|e]; [|done].
    by apply mul_ok.
Qed.

Lemma tanh_ok self s :
  wf (heap s) → self < length (heap s) → built_ok (Value.tanh host self s).
Proof.
  intros Hwf Hself. unfold Value.tanh.
  unfold bind at 1, read at 1. unfold bind at 1, lift at 1.
  destruct (math_exp host _) as [e1|e]; [|done].
  unfold bind at 1, lift at 1. unfold bind at 1, lift at 1.
  destruct (float_truediv _ _) as [t|e]; [|done].
  apply (wf_new_node _ _ _ (λ out, tanh_backward self t out)); [done| |].
  - by intros c ->%list_elem_of_singleton.
  - simpl. rewrite set_order_elem_of, list_elem_of_singleton. tauto.
Qed.

Lemma exp_ok self s :
  wf (heap s) → self < length (heap s) → built_ok (Value.exp host self s).
Proof.
  intros Hwf Hself. unfold Value.exp.
  unfold bind at 1, read at 1. unfold bind at 1, lift at 1.
  destruct (math_exp host _) as [e1|e]; [|done].
  apply (wf_new_node _ _ _ (λ out, exp_backward self out)); [done| |].
  - by intros c ->%list_elem_of_singleton.
  - simpl. rewrite set_order_elem_of, list_elem_of_singleton. tauto.
Qed.
End construction.

(** ** Two programs *)

Lemma sample_host_ok : host_ok sample_host.
Proof.
  intros l. split; [apply NoDup_remove_dups|].
  intros x. apply elem_of_remove_dups.
Qed.

Section examples.
Context (host : Host) (Hhost : host_ok host).

Lemma set_order_single a : set_order host [a] = [a].
Proof.
  destruct (Hhost [a]) as [ND H].
  destruct (set_order host [a]) as [|x [|y l]].
  - exfalso. apply (elem_of_nil a), H. by left.
  - f_equal. apply list_elem_of_singleton, H. by left.
  - assert (x = a) as -> by (apply list_elem_of_singleton, H; by left).
    assert (y = a) as -> by (apply list_elem_of_singleton, H; right; by left).
    apply NoDup_cons in ND as [ND _]. destruct ND. by left.
Qed.


Lemma set_order_pair a b :
  a ≠ b → set_order host [a; b] = [a; b] ∨ set_order host [a; b] = [b; a].
Proof.
  intros Hne. destruct (Hhost [a; b]) as [ND H].
  assert (∀ x, x ∈ set_order host [a; b] ↔ x = a ∨ x = b) as H'.
  { intros x. rewrite H. apply elem_of_pair. }
  destruct (set_order host [a; b]) as [|x [|y [|z l]]].
  - exfalso. apply (elem_of_nil a), H'. by left.
  - exfalso. assert (a = x) by (apply list_elem_of_singleton, H'; by left).
    assert (b = x) by (apply list_elem_of_singleton, H'; by right).
    congruence.
  - assert (x ≠ y) as Hxy.
    { intros ->. apply NoDup_cons in ND as [ND _]. destruct ND. by left. }
    assert (x = a ∨ x = b) as Hx by (apply H'; by left).
    assert (y = a ∨ y = b) as Hy by (apply H'; right; by left).
    destruct Hx as [->| ->], Hy as [->| ->]; try done; [by left|by right].
  - exfalso.
    apply NoDup_cons in ND as [Hx ND]. apply NoDup_cons in ND as [Hy ND].
    assert (x = a ∨ x = b) as Ex by (apply H'; by left).
    assert (y = a ∨ y = b) as Ey by (apply H'; right; by left).
    assert (z = a ∨ z = b) as Ez by (apply H'; right; right; by left).
    apply not_elem_of_cons in Hx as [? Hx].
    apply not_elem_of_cons in Hx as [? _].
    apply not_elem_of_cons in Hy as [? _].
    destruct Ex as [->| ->], Ey as [->| ->], Ez as [->| ->]; congruence.
Qed.


End examples.

Section tanh_example.
Context (host : Host) (Hhost : host_ok host).
Context (E P : float).
Context (Hexp : math_exp host 8 = Ok E).
Context (Hdiv : (E + 1 =? 0)%float = false).
Context (Hpow : Value.pow host ((E - 1) / (E + 1)) (Int 2) = Ok P).
Context (Hnan : is_nan P = false).

Lemma tanh_example_state :
  ∃ prev_m prev_d,
    (prev_m = [0; 1] ∨ prev_m = [1; 0]) ∧ (prev_d = [3; 2] ∨ prev_d = [2; 3]) ∧
    tanh_example host empty_state
    = Value.backward host 5
        (mkState [leaf 2; leaf (-3); leaf 10;
                  mkValue (-6) prev_m op_mul 0 (mul_backward 0 1 3);
                  mkValue 4 prev_d op_add 0 (add_backward 3 2 4);
                  mkValue ((E - 1) / (E + 1)) [4] op_tanh 0
                    (tanh_backward 4 ((E - 1) / (E + 1)) 5)] 0).
Proof.
  exists (set_order host [0; 1]), (set_order host [3; 2]).
  split; [by apply set_order_pair|]. split; [by apply set_order_pair|].
  unfold tanh_example. do 3 (unfold bind at 1; simpl).
  rewrite (set_order_nil host Hhost).
  unfold bind at 1. rewrite mul_eq. unfold bind at 1. rewrite add_eq. simpl.
  unfold bind at 1. unfold Value.tanh.
  unfold bind at 1, read at 1. simpl.
  unfold bind at 1, lift at 1.
  replace (math_exp host _) with (Ok E) by (symmetry; exact Hexp).
  unfold bind at 1, lift at 1.
  replace (math_exp host _) with (Ok E) by (symmetry; exact Hexp).
  unfold bind at 1, lift at 1, float_truediv. rewrite Hdiv.
  rewrite (new_node host _ _ _ (λ out, tanh_backward 4 _ out)). simpl.
  rewrite (set_order_single host Hhost). reflexivity.
Qed.

Lemma tanh_example_run prev_m prev_d :
  (prev_m = [0; 1] ∨ prev_m = [1; 0]) → (prev_d = [3; 2] ∨ prev_d = [2; 3]) →
  ∃ s', Value.backward host 5
        (mkState [leaf 2; leaf (-3); leaf 10;
                  mkValue (-6) prev_m op_mul 0 (mul_backward 0 1 3);
                  mkValue 4 prev_d op_add 0 (add_backward 3 2 4);
                  mkValue ((E - 1) / (E + 1)) [4] op_tanh 0
                    (tanh_backward 4 ((E - 1) / (E + 1)) 5)] 0) = (Ok tt, s') ∧
    data (deref (heap s') 0) = 2%float ∧
    data (deref (heap s') 1) = (-3)%float ∧
    data (deref (heap s') 4) = 4%float ∧
    data (deref (heap s') 5) = ((E - 1) / (E + 1))%float ∧
    gradient (deref (heap s') 0)
    = (0 + -3 * (0 + 1 * (0 + (1 - P) * 1)))%float ∧
    gradient (deref (heap s') 1)
    = (0 + 2 * (0 + 1 * (0 + (1 - P) * 1)))%float ∧
    gradient (deref (heap s') 2) = (0 + 1 * (0 + (1 - P) * 1))%float.
Proof.
  intros Hm Hd. unfold Value.backward. simpl heap.
  set (hp := [_; _; _; _; _; _]).
  assert (∃ topo, Value.topo_of hp 5 = Some topo ∧
                  (topo = [0; 1; 3; 2; 4; 5] ∨ topo = [1; 0; 3; 2; 4; 5] ∨
                   topo = [2; 0; 1; 3; 4; 5] ∨ topo = [2; 1; 0; 3; 4; 5]))
    as (topo & -> & Htopo).
  { destruct Hm as [->| ->], Hd as [->| ->]; eexists;
      (split; [vm_compute; reflexivity|]); tauto. }
  cbv [bind write]. simpl heap. simpl draws. subst hp. simpl alter.
  assert (∃ rest, reverse topo = 5 :: 4 :: rest ∧
                  (rest = [2; 3; 1; 0] ∨ rest = [2; 3; 0; 1] ∨
                   rest = [3; 1; 0; 2] ∨ rest = [3; 0; 1; 2]))
    as (rest & -> & Hrest).
  { destruct Htopo as [->|[->|[->| ->]]]; eexists; (split; [reflexivity|]);
      tauto. }
  rewrite for_each_cons, call_backward_eq. simpl _backward.
  cbv [Value.call bind lift]. rewrite Hpow.
  destruct Hrest as [->|[->|[->| ->]]]; eexists;
    (split; [vm_compute; reflexivity|]); by split_and!.
Qed.

Lemma gradient_through_sum (x : float) :
  is_nan x = false → (0 + 1 * (0 + x * 1) =? x)%float = true.
Proof.
  intros Hx. rewrite float_mul_1_r, float_mul_1_l, float_add_0_l_idem.
  by apply float_add_0_l_eqb.
Qed.

Lemma gradient_through_product (c x : float) s m e :
  Prim2SF c = S754_finite s m e →
  (0 + c * (0 + -0) =? c * -0)%float = true →
  is_nan x = false →
  (0 + c * (0 + 1 * (0 + x * 1)) =? c * x)%float = true.
Proof.
  intros Hc Hzero Hx.
  rewrite float_mul_1_r, float_mul_1_l, float_add_0_l_idem.
  destruct (float_negzero_dec x) as [->|H]; [done|].
  rewrite (float_add_0_l x) by done.
  apply float_add_0_l_eqb. by eapply float_mul_finite_not_nan.
Qed.

(** C4: for [a = 2.0], [b = -3.0], [c = 10.0], [d = a*b + c] and
    [f = d.tanh()], with [E] the result of [math.exp(2 * 4.0)] and [P] that of
    [f.data ** 2], not a NaN: [d.data] is [4.0], [f.data] is
    [(E - 1) / (E + 1)], and after [f.backward()] the gradients of [a], [b]
    and [c] compare equal ([==]) to [b.data * (1 - P)], [a.data * (1 - P)]
    and [1 - P]. *)
Theorem tanh_end_to_end :
  ∃ s', tanh_example host empty_state = (Ok tt, s') ∧
    let a := deref (heap s') 0 in
    let b := deref (heap s') 1 in
    let c := deref (heap s') 2 in
    let d := deref (heap s') 4 in
    let f := deref (heap s') 5 in
    data d = 4%float ∧
    data f = ((E - 1) / (E + 1))%float ∧
    Value.pow host (data f) (Int 2) = Ok P ∧
    (gradient a =? data b * (1 - P))%float = true ∧
    (gradient b =? data a * (1 - P))%float = true ∧
    (gradient c =? 1 - P)%float = true.
Proof.
  destruct tanh_example_state as (prev_m & prev_d & Hm & Hd & ->).
  destruct (tanh_example_run prev_m prev_d Hm Hd)
    as (s' & -> & Da & Db & Dd & Df & Ga & Gb & Gc).
  exists s'. split; [done|].
  simpl. rewrite Da, Db, Dd, Df, Ga, Gb, Gc.
  pose proof (float_sub_1_not_nan P Hnan) as HX.
  split_and!; try done.
  - by eapply gradient_through_product.
  - by eapply gradient_through_product.
  - by apply gradient_through_sum.
Qed.
End tanh_example.

(** ** Neurons, layers and networks *)

Lemma zip_take_l {A B} (l : list A) (k : list B) :
  zip l k = zip (take (length k) l) k.
Proof.
  revert k. induction l as [|x l IH]; intros [|y k]; simpl; try done.
  by rewrite <- IH.
Qed.

Lemma zip_take_r {A B} (l : list A) (k : list B) n :
  length l ≤ n → zip l k = zip l (take n k).
Proof.
  revert k n. induction l as [|x l IH]; intros [|y k] [|n] Hn; simpl in *;
    try done; try lia.
  rewrite <- IH; [done|lia].
Qed.

Lemma map_M_ext {A B} (f g : A → M B) l :
  (∀ x, x ∈ l → f x = g x) → map_M f l = map_M g l.
Proof.
  induction l as [|x l IH]; intros H; simpl; [done|].
  rewrite (H x) by (by left). rewrite IH; [done|].
  intros y Hy. apply H. by right.
Qed.

Lemma map_M_fmap {A B C} (f : B → M C) (g : A → B) l :
  map_M f (g <$> l) = map_M (λ x, f (g x)) l.
Proof. induction l as [|x l IH]; csimpl; [done|]. by rewrite IH. Qed.

Lemma map_M_cons {A B} (f : A → M B) x l s :
  map_M f (x :: l) s
  = match f x s with
    | (Ok y, s1) =>
        match map_M f l s1 with
        | (Ok ys, s2) => (Ok (y :: ys), s2)
        | (Raise e, s2) => (Raise e, s2)
        end
    | (Raise e, s1) => (Raise e, s1)
    end.
Proof. reflexivity. Qed.

Lemma map_M_length {A B} (f : A → M B) l s ys s' :
  map_M f l s = (Ok ys, s') → length ys = length l.
Proof.
  revert s ys. induction l as [|x l IH]; intros s ys.
  - by intros [= <- _].
  - rewrite map_M_cons. destruct (f x s) as [[y|e] s1]; [|done].
    destruct (map_M f l s1) as [[ys'|e] s2] eqn:E; [|done].
    intros [= <- <-]. simpl. f_equal. by eapply IH.
Qed.

Lemma map_M_lookup {A B} (f : A → M B) l s ys s' i x :
  map_M f l s = (Ok ys, s') → l !! i = Some x →
  ∃ si y, ys !! i = Some y ∧ (f x si).1 = Ok y.
Proof.
  revert s ys i. induction l as [|z l IH]; intros s ys i; [done|].
  rewrite map_M_cons. destruct (f z s) as [[y|e] s1] eqn:Ez; [|done].
  destruct (map_M f l s1) as [[ys'|e] s2] eqn:E; [|done].
  intros [= <- <-]. destruct i as [|i]; simpl.
  - intros [= <-]. exists s, y. by rewrite Ez.
  - intros Hi. by eapply IH.
Qed.

Section network.
Context (host : Host).

Lemma neuron_short_input n xs :
  Neuron.__call__ host n (many xs)
  = Neuron.__call__ host (truncate (length xs) n) (many xs).
Proof. simpl. by rewrite <- zip_take_l. Qed.

Lemma neuron_long_input n xs nin :
  length (Neuron.w n) ≤ nin →
  Neuron.__call__ host n (many xs)
  = Neuron.__call__ host n (many (take nin xs)).
Proof. intros Hn. simpl. by rewrite <- zip_take_r. Qed.

Lemma layer_short_input l xs :
  Layer.__call__ host l (many xs)
  = Layer.__call__ host (Layer.mk (truncate (length xs) <$> Layer.neurons l))
      (many xs).
Proof.
  unfold Layer.__call__. simpl. rewrite map_M_fmap.
  f_equal. apply map_M_ext. intros n _. apply neuron_short_input.
Qed.

Lemma layer_long_input l xs nin :
  Forall (λ n, length (Neuron.w n) ≤ nin) (Layer.neurons l) →
  Layer.__call__ host l (many xs)
  = Layer.__call__ host l (many (take nin xs)).
Proof.
  intros Hl. unfold Layer.__call__. f_equal.
  apply map_M_ext. intros n Hn. apply neuron_long_input.
  by eapply Forall_forall in Hl.
Qed.

(** C5, as amended: a call with an input of another length than the
    arity is not rejected.  Weights and inputs are paired by position up to
    the shorter of the two: a neuron called with fewer inputs than weights
    answers as the neuron without its last weights, and inputs beyond the
    last weight are ignored; so does every neuron of a layer, and of the
    first layer of a network. *)
Theorem shape_mismatch_truncates :
  (∀ n xs, Neuron.__call__ host n (many xs)
           = Neuron.__call__ host (truncate (length xs) n) (many xs)) ∧
  (∀ n xs, Neuron.__call__ host n (many xs)
           = Neuron.__call__ host n (many (take (length (Neuron.w n)) xs))) ∧
  (∀ l xs, Layer.__call__ host l (many xs)
           = Layer.__call__ host
               (Layer.mk (truncate (length xs) <$> Layer.neurons l))
               (many xs)) ∧
  (∀ l xs nin, Forall (λ n, length (Neuron.w n) ≤ nin) (Layer.neurons l) →
           Layer.__call__ host l (many xs)
           = Layer.__call__ host l (many (take nin xs))) ∧
  (∀ l ls xs, MLP.__call__ host (MLP.mk (l :: ls)) (many xs)
           = MLP.__call__ host
               (MLP.mk (Layer.mk (truncate (length xs) <$> Layer.neurons l)
                        :: ls))
               (many xs)) ∧
  (∀ l ls xs nin, Forall (λ n, length (Neuron.w n) ≤ nin) (Layer.neurons l) →
           MLP.__call__ host (MLP.mk (l :: ls)) (many xs)
           = MLP.__call__ host (MLP.mk (l :: ls)) (many (take nin xs))).
Proof.
  split_and!.
  - apply neuron_short_input.
  - intros n xs. by apply neuron_long_input.
  - apply layer_short_input.
  - apply layer_long_input.
  - intros l ls xs. unfold MLP.__call__. simpl.
    by rewrite <- layer_short_input.
  - intros l ls xs nin Hl. unfold MLP.__call__. simpl.
    by rewrite <- layer_long_input.
Qed.

(** C8, as amended: when the neurons of a layer return [outs], one
    output for each neuron and in the order of the neurons, the layer returns
    the sequence [outs] if it has no or several neurons, and the bare node
    [outs[0]] if it has exactly one. *)
Theorem layer_return_shape l x s outs :
  (map_M (λ n, Neuron.__call__ host n x) (Layer.neurons l) s).1 = Ok outs →
  let s' := (map_M (λ n, Neuron.__call__ host n x) (Layer.neurons l) s).2 in
  length outs = length (Layer.neurons l) ∧
  (∀ i n, Layer.neurons l !! i = Some n →
     ∃ si out, outs !! i = Some out ∧
               (Neuron.__call__ host n x si).1 = Ok out) ∧
  (length (Layer.neurons l) ≠ 1 →
   Layer.__call__ host l x s = (Ok (many (OValue <$> outs)), s')) ∧
  (length (Layer.neurons l) = 1 →
   ∃ out, outs = [out] ∧ Layer.__call__ host l x s = (Ok (one out), s')).
Proof.
  intros E. simpl.
  destruct (map_M _ (Layer.neurons l) s) as [r s'] eqn:E'. simpl in *. subst r.
  pose proof (map_M_length _ _ _ _ _ E') as Hlen.
  unfold Layer.__call__, bind. rewrite E'. split_and!; [done| | |].
  - intros i n Hn. destruct (map_M_lookup _ _ _ _ _ _ _ E' Hn) as (si & y & ? & ?).
    by exists si, y.
  - intros Hne. by destruct outs as [|? [|]]; simpl in *; try lia.
  - intros H1. destruct outs as [|out [|]]; simpl in *; try lia. by exists out.
Qed.

Lemma random_Value_eq s :
  Neuron.random_Value host s
  = (Ok (length (heap s)),
     mkState (heap s ++ [mkValue (uniform host (draws s)) (set_order host [])
                           op_leaf 0 lambda_None]) (S (draws s))).
Proof. reflexivity. Qed.

Lemma repeat_M_S {A} (m : M A) n s :
  repeat_M (S n) m s
  = match m s with
    | (Ok x, s1) =>
        match repeat_M n m s1 with
        | (Ok xs, s2) => (Ok (x :: xs), s2)
        | (Raise e, s2) => (Raise e, s2)
        end
    | (Raise e, s1) => (Raise e, s1)
    end.
Proof. reflexivity. Qed.

Lemma repeat_random nin s :
  ∃ s', repeat_M nin (Neuron.random_Value host) s
        = (Ok (seq (length (heap s)) nin), s') ∧
        length (heap s') = length (heap s) + nin.
Proof.
  revert s. induction nin as [|nin IH]; intros s.
  - exists s. split; [done|lia].
  - rewrite repeat_M_S, random_Value_eq.
    destruct (IH (mkState (heap s ++ [mkValue (uniform host (draws s))
                                        (set_order host []) op_leaf 0
                                        lambda_None]) (S (draws s))))
      as (s' & E & Hlen).
    simpl in E, Hlen. rewrite length_app in E, Hlen. simpl in E, Hlen.
    rewrite E. exists s'. split; [|lia].
    do 2 f_equal. simpl. f_equal. f_equal. lia.
Qed.

Lemma neuron_init nin s :
  ∃ s', Neuron.__init__ host nin s
        = (Ok (Neuron.mk (seq (length (heap s)) nin) (length (heap s) + nin)),
           s') ∧
        length (heap s') = length (heap s) + S nin.
Proof.
  destruct (repeat_random nin s) as (s1 & E & Hlen).
  unfold Neuron.__init__, bind. rewrite E, random_Value_eq. simpl.
  eexists. split; [by rewrite Hlen|]. simpl. rewrite length_app. simpl. lia.
Qed.
End network.

(** ** The forward pass keeps the graph well formed *)

Lemma operand_ok_mono o hp hp' :
  length hp ≤ length hp' → operand_ok o hp → operand_ok o hp'.
Proof. destruct o; simpl; lia. Qed.

Section forward.
Context (host : Host) (Hhost : host_ok host).

Lemma allocates_sum_step acc wx :
  allocates_only (Neuron.sum_step host acc wx).
Proof.
  apply allocates_bind; [apply allocates_mul|intros; apply allocates_add].
Qed.

Lemma sum_step_ok acc wx s :
  wf (heap s) → acc < length (heap s) → wx.1 < length (heap s) →
  operand_ok wx.2 (heap s) →
  built_ok (Neuron.sum_step host acc wx s).
Proof.
  intros Hwf Hacc Hw Hx. apply built_ok_bind; [by apply mul_ok|].
  intros p s' E. pose proof (mul_ok host Hhost wx.1 wx.2 s Hwf Hw Hx) as [Hwf' Hp].
  pose proof (length_after _ s (allocates_mul host wx.1 wx.2)) as Hle.
  rewrite E in Hwf', Hp, Hle. simpl in *. apply add_ok; [done..|lia|done].
Qed.

Lemma sum_ok l :
  ∀ s acc, wf (heap s) → acc < length (heap s) →
    Forall (λ wx, wx.1 < length (heap s) ∧ operand_ok wx.2 (heap s)) l →
    built_ok (fold_M (Neuron.sum_step host) l acc s).
Proof.
  induction l as [|wx l IH]; intros s acc Hwf Hacc Hl; [by split|].
  apply Forall_cons in Hl as [[Hw Hx] Hl]. simpl.
  apply built_ok_bind; [by apply sum_step_ok|].
  intros acc' s' E.
  pose proof (sum_step_ok acc wx s Hwf Hacc Hw Hx) as [Hwf' Hacc'].
  pose proof (length_after _ s (allocates_sum_step acc wx)) as Hle.
  rewrite E in Hwf', Hacc', Hle. simpl in *. apply IH; [done..|].
  eapply Forall_impl; [done|]. intros [w x] [? ?]. simpl in *.
  split; [lia|by eapply operand_ok_mono].
Qed.

Lemma neuron_call_ok n x s :
  wf (heap s) → neuron_ok n (heap s) → activations_ok x (heap s) →
  built_ok (Neuron.__call__ host n x s).
Proof.
  intros Hwf [Hw Hb] Hx. destruct x as [v|xs]; [done|]. simpl.
  assert (Forall (λ wx, wx.1 < length (heap s) ∧ operand_ok wx.2 (heap s))
            (zip (Neuron.w n) xs)) as Hzip.
  { apply Forall_forall. intros [w x] Hin. simpl.
    split.
    - eapply Forall_forall in Hw; [done|]. by eapply elem_of_zip_l.
    - eapply Forall_forall in Hx; [done|]. by eapply elem_of_zip_r. }
  apply built_ok_bind; [by apply sum_ok|].
  intros act s' E.
  pose proof (sum_ok _ s (Neuron.b n) Hwf Hb Hzip) as [Hwf' Hact].
  rewrite E in Hwf', Hact. by apply tanh_ok.
Qed.

Lemma allocates_fold_M {A} (f : handle → A → M handle) l :
  (∀ acc x, allocates_only (f acc x)) → ∀ acc, allocates_only (fold_M f l acc).
Proof.
  intros Hf. induction l as [|x l IH]; intros acc; simpl.
  - apply allocates_ret.
  - apply allocates_bind; [apply Hf|apply IH].
Qed.

Lemma allocates_neuron_call n x : allocates_only (Neuron.__call__ host n x).
Proof.
  destruct x as [v|xs]; simpl; [apply allocates_lift|].
  apply allocates_bind; [|intros; apply allocates_tanh].
  apply allocates_fold_M. intros. apply allocates_sum_step.
Qed.

Lemma neuron_ok_mono n hp hp' :
  length hp ≤ length hp' → neuron_ok n hp → neuron_ok n hp'.
Proof.
  intros Hle [Hw Hb]. split; [|lia].
  eapply Forall_impl; [done|]. simpl. lia.
Qed.

Lemma activations_ok_mono x hp hp' :
  length hp ≤ length hp' → activations_ok x hp → activations_ok x hp'.
Proof.
  intros Hle. destruct x as [v|xs]; simpl; [lia|].
  intros Hx. eapply Forall_impl; [done|].
  intros o. by apply operand_ok_mono.
Qed.

Lemma neurons_call_ok ns x :
  ∀ s, wf (heap s) → Forall (λ n, neuron_ok n (heap s)) ns →
    activations_ok x (heap s) →
    wf (heap (map_M (λ n, Neuron.__call__ host n x) ns s).2) ∧
    length (heap s)
    ≤ length (heap (map_M (λ n, Neuron.__call__ host n x) ns s).2) ∧
    match (map_M (λ n, Neuron.__call__ host n x) ns s).1 with
    | Ok outs =>
        Forall (λ v, v < length
                  (heap (map_M (λ n, Neuron.__call__ host n x) ns s).2)) outs
    | Raise _ => True
    end.
Proof.
  induction ns as [|n ns IH]; intros s Hwf Hns Hx;
    [simpl; split_and!; [done|lia|constructor]|].
  apply Forall_cons in Hns as [Hn Hns]. rewrite map_M_cons.
  pose proof (neuron_call_ok n x s Hwf Hn Hx) as [Hwf1 Hout].
  pose proof (length_after _ s (allocates_neuron_call n x)) as Hle.
  destruct (Neuron.__call__ host n x s) as [[out|e] s1]; simpl in *;
    [|by split_and!].
  destruct (IH s1) as (Hwf2 & Hle2 & Houts); [done| |by eapply activations_ok_mono|].
  { eapply Forall_impl; [done|]. intros n'. by apply neuron_ok_mono. }
  destruct (map_M _ ns s1) as [[outs|e] s2]; simpl in *;
    [|split_and!; [done|lia|done]].
  split_and!; [done|lia|]. apply Forall_cons. split; [lia|done].
Qed.

Lemma layer_call_ok l x s :
  wf (heap s) → layer_ok l (heap s) → activations_ok x (heap s) →
  forward_ok (Layer.__call__ host l x s) ∧
  length (heap s) ≤ length (heap (Layer.__call__ host l x s).2).
Proof.
  intros Hwf Hl Hx.
  destruct (neurons_call_ok (Layer.neurons l) x s Hwf Hl Hx)
    as (Hwf' & Hle & Houts).
  unfold Layer.__call__, bind, forward_ok.
  destruct (map_M _ (Layer.neurons l) s) as [[outs|e] s1]; simpl in *;
    [|done].
  split; [|done]. split; [done|].
  assert (Forall (λ o, operand_ok o (heap s1)) (OValue <$> outs)) as Hmany.
  { apply Forall_fmap. eapply Forall_impl; [done|]. done. }
  destruct outs as [|out [|out' outs]]; [done| |done].
  simpl. by apply Forall_cons in Houts as [? _].
Qed.

Lemma mlp_call_ok ls :
  ∀ x s, wf (heap s) → Forall (λ l, layer_ok l (heap s)) ls →
    activations_ok x (heap s) →
    forward_ok (MLP.__call__ host (MLP.mk ls) x s).
Proof.
  unfold MLP.__call__. simpl.
  induction ls as [|l ls IH]; intros x s Hwf Hls Hx; [by split|].
  apply Forall_cons in Hls as [Hl Hls]. simpl. unfold bind.
  destruct (layer_call_ok l x s Hwf Hl Hx) as [[Hwf1 Hy] Hle].
  destruct (Layer.__call__ host l x s) as [[y|e] s1]; simpl in *;
    [|by split].
  apply IH.
  - exact Hwf1.
  - eapply Forall_impl; [exact Hls|]. intros l' Hl'.
    eapply Forall_impl; [exact Hl'|]. intros n. by apply neuron_ok_mono.
  - exact Hy.
Qed.
End forward.

(** C9: [parameters()] of a neuron is its weights in order followed by
    its bias, [nin + 1] nodes; of a layer, the concatenation of the
    parameters of its neurons in order; of a network, the concatenation of
    the parameters of its layers in order.  A neuron built by [Neuron(nin)]
    has [nin] weights and its parameters are the [nin + 1] nodes it
    allocated, in the order of allocation.  [parameters] reads the object
    only, neither the heap nor the random source: two calls return the same
    sequence. *)
Theorem parameters_order :
  (∀ n, Neuron.parameters n = Neuron.w n ++ [Neuron.b n] ∧
        length (Neuron.parameters n) = S (length (Neuron.w n)) ∧
        take (length (Neuron.w n)) (Neuron.parameters n) = Neuron.w n ∧
        Neuron.parameters n !! length (Neuron.w n) = Some (Neuron.b n)) ∧
  (∀ l, Layer.parameters l
        = concat (Neuron.parameters <$> Layer.neurons l)) ∧
  (∀ m, MLP.parameters m = concat (Layer.parameters <$> MLP.layers m)) ∧
  (∀ host nin s, ∃ n s',
     Neuron.__init__ host nin s = (Ok n, s') ∧
     length (Neuron.w n) = nin ∧
     Neuron.parameters n = seq (length (heap s)) (S nin)).
Proof.
  split_and!.
  - intros n. unfold Neuron.parameters. split_and!; [done| | |].
    + rewrite length_app. simpl. lia.
    + by rewrite take_app_length.
    + by rewrite list_lookup_middle.
  - intros l. unfold Layer.parameters.
    induction (Layer.neurons l) as [|n ns IH]; csimpl; [done|]. by rewrite IH.
  - intros m. unfold MLP.parameters.
    induction (MLP.layers m) as [|l ls IH]; csimpl; [done|]. by rewrite IH.
  - intros host nin s. destruct (neuron_init host nin s) as (s' & E & _).
    eexists _, s'. split; [done|]. unfold Neuron.parameters.
    cbn [Neuron.w Neuron.b]. split; [by rewrite length_seq|].
    symmetry. apply seq_S.
Qed.

(** C10: each of [__add__], [__mul__], [__pow__], [__neg__], [__sub__],
    [__truediv__], [tanh] and [exp] leaves the heap it found with new nodes
    appended, so that every node that existed keeps its [data], [gradient],
    [previous] and closure; [Value(...)] builds a node with gradient [0.0]
    and the closure [lambda: None]; and [backward()] on a node without
    predecessors and with that closure sets the gradient of the node to
    [1.0] and changes nothing else. *)
Theorem forward_only_allocates host :
  (∀ self other, allocates_only (Value.__add__ host self other)) ∧
  (∀ self other, allocates_only (Value.__mul__ host self other)) ∧
  (∀ self other, allocates_only (Value.__pow__ host self other)) ∧
  (∀ self, allocates_only (Value.__neg__ host self)) ∧
  (∀ self other, allocates_only (Value.__sub__ host self other)) ∧
  (∀ self other, allocates_only (Value.__truediv__ host self other)) ∧
  (∀ self, allocates_only (Value.tanh host self)) ∧
  (∀ self, allocates_only (Value.exp host self)) ∧
  (∀ A (m : M A) s v n,
     allocates_only m → heap s !! v = Some n → heap (m s).2 !! v = Some n) ∧
  (∀ d children op s,
     Value.__init__ host d children op s
     = (Ok (length (heap s)),
        mkState (heap s ++ [mkValue d (set_order host children) op 0
                              lambda_None]) (draws s))) ∧
  (∀ s v,
     previous (deref (heap s) v) = [] →
     _backward (deref (heap s) v) = lambda_None →
     Value.backward host v s
     = (Ok tt, mkState (alter (with_gradient 1) v (heap s)) (draws s))).
Proof.
  split_and!.
  - apply allocates_add.
  - apply allocates_mul.
  - apply allocates_pow.
  - apply allocates_neg.
  - apply allocates_sub.
  - apply allocates_truediv.
  - apply allocates_tanh.
  - apply allocates_exp.
  - intros A m s v n. apply allocates_only_frame.
  - done.
  - apply backward_leaf.
Qed.

(** ** Closed instances *)





Lemma tanh_end_to_end_witness :
  host_ok sample_host ∧
  math_exp sample_host 8 = Ok 0x1.749ea7d470c6ep+11%float ∧
  (0x1.749ea7d470c6ep+11 + 1 =? 0)%float = false ∧
  ∃ s', tanh_example sample_host empty_state = (Ok tt, s') ∧
        data (deref (heap s') 4) = 4%float.
Proof.
  split; [apply sample_host_ok|]. split; [reflexivity|]. split; [reflexivity|].
  destruct (tanh_end_to_end sample_host sample_host_ok
              0x1.749ea7d470c6ep+11%float
              (let t := ((0x1.749ea7d470c6ep+11 - 1)
                         / (0x1.749ea7d470c6ep+11 + 1))%float in t * t)%float)
    as (s' & E & D & _); [reflexivity..|].
  exists s'. by split.
Defined.

Lemma truediv_zero_witness :
  (data (deref (heap two_leaves) 1) =? 0)%float = true ∧
  Value.__truediv__ sample_host 0 (OValue 1) two_leaves
  = (Raise ZeroDivisionError, two_leaves).
Proof.
  split; [reflexivity|]. apply truediv_zero. reflexivity.
Defined.


Lemma layer_return_shape_witness :
  (map_M (λ n, Neuron.__call__ sample_host n (many [ONum 8; ONum 2]))
     (Layer.neurons single_layer) single_state).1 = Ok [9] ∧
  (Layer.__call__ sample_host single_layer (many [ONum 8; ONum 2])
     single_state).1 = Ok (one 9).
Proof.
  assert ((map_M (λ n, Neuron.__call__ sample_host n (many [ONum 8; ONum 2]))
             (Layer.neurons single_layer) single_state).1 = Ok [9]) as H
    by (vm_compute; reflexivity).
  split; [exact H|].
  destruct (layer_return_shape sample_host single_layer
              (many [ONum 8; ONum 2]) single_state [9] H)
    as (_ & _ & _ & Hone).
  destruct (Hone eq_refl) as (out & [= <-] & ->). reflexivity.
Defined.

Lemma shape_mismatch_truncates_witness :
  Layer.__call__ sample_host single_layer (many [ONum 8; ONum 2; ONum 7])
  = Layer.__call__ sample_host single_layer (many [ONum 8; ONum 2]).
Proof.
  destruct (shape_mismatch_truncates sample_host) as (_ & _ & _ & H & _).
  apply (H single_layer [ONum 8; ONum 2; ONum 7] 2).
  repeat constructor.
Defined.

Lemma forward_only_allocates_witness :
  Value.backward sample_host 1 two_leaves
  = (Ok tt, mkState [leaf 1; mkValue 0 [] op_leaf 1 lambda_None] 0).
Proof.
  destruct (forward_only_allocates sample_host)
    as (_ & _ & _ & _ & _ & _ & _ & _ & _ & _ & H).
  by rewrite H.
Defined.

(** ** Counterexamples *)

Lemma mismatch_not_rejected :
  (mismatch_example sample_host empty_state).1
  = Ok (many [OValue 14; OValue 21]).
Proof. vm_compute. reflexivity. Qed.

Lemma division_by_zero_raises :
  (Value.__truediv__ sample_host 0 (OValue 1) two_leaves).1
  = Raise ZeroDivisionError.
Proof. vm_compute. reflexivity. Qed.

Lemma single_neuron_unwrapped :
  (single_neuron_example sample_host empty_state).1 = Ok (one 9).
Proof. vm_compute. reflexivity. Qed.

(** * Further properties *)

(** ** More floating-point identities *)



Lemma float_mul_comm (x y : float) : (x * y)%float = (y * x)%float.
Proof.
  apply Prim2SF_inj. rewrite !mul_spec.
  destruct (Prim2SF x) as [sx|sx| |sx mx ex], (Prim2SF y) as [sy|sy| |sy my ey];
    simpl; try done; try (by rewrite xorb_comm).
  by rewrite xorb_comm, Pos.mul_comm, Z.add_comm.
Qed.

Lemma float_add_comm (x y : float) : (x + y)%float = (y + x)%float.
Proof.
  apply Prim2SF_inj. rewrite !add_spec.
  destruct (Prim2SF x) as [sx|sx| |sx mx ex], (Prim2SF y) as [sy|sy| |sy my ey];
    simpl; try done; try (by destruct sx, sy).
  by rewrite Z.min_comm, Z.add_comm.
Qed.

(** ** Values of the arithmetic *)

Section values.
Context (host : Host).

(** What [coerce] returns stands for the operand, and the nodes that were
    there are as they were. *)
Lemma coerce_value other s :
  operand_ok other (heap s) →
  ∃ v s', Value.coerce host other s = (Ok v, s') ∧
    v < length (heap s') ∧
    data (deref (heap s') v) = operand_value (heap s) other ∧
    (∃ new, heap s' = heap s ++ new) ∧ draws s' = draws s.
Proof.
  intros Ho. destruct other as [v|x]; simpl.
  - exists v, s. split_and!; try done. exists []. by rewrite app_nil_r.
  - eexists _, _. split; [done|]. simpl. rewrite length_app. simpl.
    split_and!; [lia| |by eexists|done].
    by rewrite deref_app_new.
Qed.

Lemma binary_value (f : float → float → float) op
    (r : handle → handle → handle → rule) self other s :
  self < length (heap s) → operand_ok other (heap s) →
  ∃ out s',
    (other <- Value.coerce host other ;;
     a <- read data self ;;
     b <- read data other ;;
     out <- Value.__init__ host (f a b) [self; other] op ;;
     write (with_backward (r self other out)) out ;;; ret out) s
    = (Ok out, s') ∧
    out < length (heap s') ∧
    data (deref (heap s') out)
    = f (data (deref (heap s) self)) (operand_value (heap s) other) ∧
    gradient (deref (heap s') out) = 0%float ∧
    (∀ v, v < length (heap s) → deref (heap s') v = deref (heap s) v) ∧
    length (heap s) < length (heap s') ∧ draws s' = draws s.
Proof.
  intros Hself Ho.
  destruct (coerce_value other s Ho) as (v & s1 & E & Hv & Dv & [new Hnew] & Hd).
  unfold bind at 1. rewrite E.
  unfold bind at 1, read at 1. unfold bind at 1, read at 1.
  rewrite (new_node host _ _ _ (λ out, r self v out)).
  eexists _, _. split; [done|]. simpl.
  rewrite deref_app_new, length_app. simpl.
  split_and!; [lia| |done| |rewrite Hnew, length_app; lia|done].
  - rewrite Dv. f_equal. rewrite Hnew. by rewrite deref_app_l.
  - intros u Hu. rewrite deref_app_l by (rewrite Hnew, length_app; lia).
    rewrite Hnew. by apply deref_app_l.
Qed.

Lemma add_value self other s :
  self < length (heap s) → operand_ok other (heap s) →
  ∃ out s', Value.__add__ host self other s = (Ok out, s') ∧
    out < length (heap s') ∧
    data (deref (heap s') out)
    = (data (deref (heap s) self) + operand_value (heap s) other)%float ∧
    gradient (deref (heap s') out) = 0%float ∧
    (∀ v, v < length (heap s) → deref (heap s') v = deref (heap s) v) ∧
    length (heap s) < length (heap s') ∧ draws s' = draws s.
Proof. apply (binary_value PrimFloat.add op_add add_backward). Qed.

Lemma mul_value self other s :
  self < length (heap s) → operand_ok other (heap s) →
  ∃ out s', Value.__mul__ host self other s = (Ok out, s') ∧
    out < length (heap s') ∧
    data (deref (heap s') out)
    = (data (deref (heap s) self) * operand_value (heap s) other)%float ∧
    gradient (deref (heap s') out) = 0%float ∧
    (∀ v, v < length (heap s) → deref (heap s') v = deref (heap s) v) ∧
    length (heap s) < length (heap s') ∧ draws s' = draws s.
Proof. apply (binary_value PrimFloat.mul op_mul mul_backward). Qed.
End values.

Section composed.
Context (host : Host).


(** X2: with a bare number [x] on the left of a node [a] of the heap,
    [x + a] and [x * a] return a new node whose data is [x + a.data] and
    [x * a.data]: [__radd__] and [__rmul__] swap the operands, and the two
    float operations are commutative. *)
Theorem reflected_values s a x :
  a < length (heap s) →
  (∃ out s', Value.__radd__ host a (ONum x) s = (Ok out, s') ∧
     data (deref (heap s') out) = (x + data (deref (heap s) a))%float) ∧
  (∃ out s', Value.__rmul__ host a (ONum x) s = (Ok out, s') ∧
     data (deref (heap s') out) = (x * data (deref (heap s) a))%float).
Proof.
  intros Ha. split.
  - destruct (add_value host a (ONum x) s Ha I) as (out & s' & E & _ & D & _).
    exists out, s'. split; [done|]. rewrite D. simpl. apply float_add_comm.
  - destruct (mul_value host a (ONum x) s Ha I) as (out & s' & E & _ & D & _).
    exists out, s'. split; [done|]. rewrite D. simpl. apply float_mul_comm.
Qed.
End composed.

Section unary.
Context (host : Host).





(** X5: [a / x] with a bare number [x] evaluates [x ** -1] on numbers
    before any node is built: for [x] zero it raises [ZeroDivisionError] and
    the heap is untouched, an exception of [**] is passed on likewise, and
    with [x ** -1 = r] the result is a new node of data [a.data * r], the
    nodes that were in the heap being left as they were. *)
Theorem truediv_number s a x :
  a < length (heap s) →
  ((x =? 0)%float = true →
   Value.__truediv__ host a (ONum x) s = (Raise ZeroDivisionError, s)) ∧
  (∀ e, Value.pow host x (Int (-1)) = Raise e →
   Value.__truediv__ host a (ONum x) s = (Raise e, s)) ∧
  (∀ r, Value.pow host x (Int (-1)) = Ok r →
   ∃ out s', Value.__truediv__ host a (ONum x) s = (Ok out, s') ∧
     data (deref (heap s') out) = (data (deref (heap s) a) * r)%float ∧
     ∀ v, v < length (heap s) → deref (heap s') v = deref (heap s) v).
Proof.
  intros Ha. split_and!.
  - intros Hx. cbv [Value.__truediv__ bind lift]. by rewrite pow_zero_neg.
  - intros e He. cbv [Value.__truediv__ bind lift]. by rewrite He.
  - intros r Hr. destruct (mul_value host a (ONum r) s Ha I)
      as (out & s' & E & _ & D & _ & F & _).
    exists out, s'. unfold Value.__truediv__, bind, lift. rewrite Hr.
    by split_and!.
Qed.
End unary.

(** ** Division by a node *)

Section quotient.
Context (host : Host).

(** X6: [a / b] for two nodes of the heap, where [b.data ** -1] evaluates
    to [r]: two nodes are appended, the reciprocal [b ** -1] with data [r]
    and the quotient with data [a.data * r] (the product with the
    reciprocal, not a float division), whose predecessors are [a] and the
    reciprocal; the nodes that were in the heap are left as they were. *)
Theorem truediv_value s a b r :
  a < length (heap s) → b < length (heap s) →
  Value.pow host (data (deref (heap s) b)) (Int (-1)) = Ok r →
  let inv := length (heap s) in
  let out := S (length (heap s)) in
  ∃ s', Value.__truediv__ host a (OValue b) s = (Ok out, s') ∧
    length (heap s') = length (heap s) + 2 ∧ draws s' = draws s ∧
    deref (heap s') inv
    = mkValue r (set_order host [b]) (op_pow (Int (-1))) 0
        (pow_backward b (Int (-1)) inv) ∧
    deref (heap s') out
    = mkValue (data (deref (heap s) a) * r) (set_order host [a; inv]) op_mul 0
        (mul_backward a inv out) ∧
    ∀ v, v < length (heap s) → deref (heap s') v = deref (heap s) v.
Proof.
  intros Ha Hb Hr inv out. eexists. split.
  - unfold Value.__truediv__. unfold bind at 1.
    assert (Value.__pow__ host b (PyInt (-1)) s
            = (Ok inv,
               mkState (heap s ++ [mkValue r (set_order host [b])
                                     (op_pow (Int (-1))) 0
                                     (pow_backward b (Int (-1)) inv)])
                 (draws s))) as -> by apply (pow_eq host b (Int (-1)) s r Hr).
    rewrite mul_eq. cbn [heap draws]. rewrite length_app. cbn [length].
    rewrite deref_app_new, deref_app_l by lia. cbn [data].
    replace (length (heap s) + 1) with out by (unfold out; lia).
    reflexivity.
  - cbn [heap draws]. rewrite !length_app. cbn [length]. split_and!.
    + lia.
    + done.
    + rewrite deref_app_l by (rewrite length_app; simpl; lia).
      apply deref_app_new.
    + unfold out.
      replace (S (length (heap s)))
        with (length (heap s ++ [mkValue r (set_order host [b])
                                   (op_pow (Int (-1))) 0
                                   (pow_backward b (Int (-1)) inv)]))
        by (rewrite length_app; simpl; lia).
      rewrite deref_app_new. f_equal; rewrite length_app; simpl;
        by rewrite ?Nat.add_1_r.
    + intros v Hv. rewrite !deref_app_l; [done|lia|].
      rewrite length_app. simpl. lia.
Qed.
End quotient.

(** ** What the backward pass leaves alone *)







Section frame.
Context (host : Host).




Lemma topo_of_last hp root topo :
  Value.topo_of hp root = Some topo → ∃ pre, topo = pre ++ [root].
Proof.
  unfold Value.topo_of. simpl.
  rewrite decide_False by set_solver.
  destruct (Value.for_children _ _ _) as [st|]; [|done].
  intros [= <-]. by eexists.
Qed.

End frame.

Section passes.
Context (host : Host) (Hhost : host_ok host).

(** The pass begins with the closure of the root. *)
Lemma backward_first s root :
  wf (heap s) → root < length (heap s) →
  ∃ rest,
    (∀ u, u ∈ rest → reachable (heap s) root u ∧ u ≠ root) ∧
    Value.backward host root s
    = for_each (Value.call_backward host) (root :: rest)
        (mkState (alter (with_gradient 1) root (heap s)) (draws s)).
Proof.
  intros Hwf Hroot.
  destruct (topo_of_spec (heap s) Hwf root Hroot) as (topo & E & ND & R & C).
  destruct (topo_of_last _ _ _ E) as [pre ->].
  exists (reverse pre). split.
  - intros u Hu. apply (proj1 (elem_of_reverse _ _)) in Hu. split.
    + apply R. apply elem_of_app. by left.
    + intros ->. apply NoDup_app in ND as (_ & ND & _).
      apply (ND root Hu). by left.
  - unfold Value.backward. rewrite E, reverse_app. reflexivity.
Qed.

Lemma for_each_leaves l st :
  (∀ u, u ∈ l → _backward (deref (heap st) u) = lambda_None) →
  for_each (Value.call_backward host) l st = (Ok tt, st).
Proof.
  induction l as [|u l IH]; intros Hl; [done|].
  rewrite for_each_cons, call_backward_eq, (Hl u) by (by left). simpl.
  apply IH. intros u' Hu'. apply Hl. by right.
Qed.

Lemma wf_leaf_closure hp v :
  wf hp → previous (deref hp v) = [] → _backward (deref hp v) = lambda_None.
Proof.
  intros Hwf. unfold deref. destruct (hp !! v) as [n|] eqn:Hn; simpl; [|done].
  intros Hp. destruct (Hwf v n Hn) as [_ Hr]. rewrite Hp in Hr.
  destruct (_backward n); simpl in Hr; try done;
    exfalso; first [destruct Hr as (_ & Hr & _)|destruct Hr as (_ & Hr)];
    by apply elem_of_nil in Hr.
Qed.


Lemma wf_same_graph hp hp' : same_graph hp hp' → wf hp → wf hp'.
Proof.
  intros [Hlen HG] Hwf v n' Hn'.
  assert (v < length hp) as [n Hn]%lookup_lt_is_Some.
  { rewrite <- Hlen. apply lookup_lt_is_Some. by eexists. }
  destruct (HG v) as (_ & HP & HB). unfold deref in HP, HB.
  rewrite Hn, Hn' in HP, HB. simpl in HP, HB.
  unfold node_ok. rewrite HP, HB. by apply Hwf.
Qed.

(** The pass from a product of two leaves. *)
Lemma backward_product_node s out a b :
  wf (heap s) → out < length (heap s) → a ≠ b →
  previous (deref (heap s) out) = set_order host [a; b] →
  _backward (deref (heap s) out) = mul_backward a b out →
  previous (deref (heap s) a) = [] → previous (deref (heap s) b) = [] →
  Value.backward host out s
  = (Ok tt,
     mkState (alter (accumulate (data (deref (heap s) a))) b
                (alter (accumulate (data (deref (heap s) b))) a
                   (alter (with_gradient 1) out (heap s)))) (draws s)).
Proof.
  intros Hwf Hout Hne Pout Bout Pa Pb.
  assert (a < out ∧ b < out) as [Hao Hbo].
  { pose proof (wf_previous (heap s) Hwf out) as Hp. rewrite Pout in Hp.
    split; apply Hp, (set_order_elem_of host Hhost), elem_of_pair; auto. }
  assert (∀ u, reachable (heap s) out u → u = out ∨ u = a ∨ u = b) as Hreach.
  { intros u Hu. inversion Hu as [|? c ? Hc Hcu]; subst; [by left|].
    rewrite Pout in Hc.
    apply (proj1 (set_order_elem_of host Hhost _ _)) in Hc.
    apply (proj1 (elem_of_pair _ _ _)) in Hc. right.
    inversion Hcu as [|? c' ? Hc' _]; subst; [done|].
    exfalso. destruct Hc as [->| ->];
      [rewrite Pa in Hc'|rewrite Pb in Hc']; by apply elem_of_nil in Hc'. }
  destruct (backward_first s out Hwf Hout) as (rest & Hrest & ->).
  rewrite for_each_cons, call_backward_eq. cbn [heap draws].
  rewrite deref_alter_eq by done.
  replace (_backward (with_gradient 1 (deref (heap s) out)))
    with (mul_backward a b out) by (by rewrite <- Bout).
  rewrite call_mul by lia. cbn [heap draws].
  rewrite (deref_alter_eq _ out) by done.
  rewrite (deref_alter_ne _ out _ a), (deref_alter_ne _ out _ b) by lia.
  cbn [gradient with_gradient]. rewrite !float_mul_1_r.
  apply for_each_leaves. intros u Hu. cbn [heap].
  destruct (Hrest u Hu) as [Hur Hno]. apply Hreach in Hur.
  assert (_backward (deref (heap s) u) = lambda_None) as Hleaf.
  { apply wf_leaf_closure; [done|]. by destruct Hur as [?|[->| ->]]. }
  rewrite <- Hleaf.
  apply (same_graph_trans _ (alter (with_gradient 1) out (heap s)));
    [apply same_graph_with_gradient|].
  eapply same_graph_trans; apply same_graph_accumulate.
Qed.

(** X9: for two distinct leaves [a] and [b] of a well-formed heap, with
    [out = a * b]: [out.backward()] returns, leaves the gradient of [out]
    at 1.0 and adds [b.data] to the gradient of [a] and [a.data] to the
    gradient of [b], on top of what they held.  A second [out.backward()]
    adds the same amounts once more, while the gradient of [out] is 1.0
    again: gradients accumulate over passes unless they are reset. *)
Theorem backward_product s a b :
  wf (heap s) → a < length (heap s) → b < length (heap s) → a ≠ b →
  previous (deref (heap s) a) = [] → previous (deref (heap s) b) = [] →
  let ga := gradient (deref (heap s) a) in
  let gb := gradient (deref (heap s) b) in
  let da := data (deref (heap s) a) in
  let db := data (deref (heap s) b) in
  ∃ out s1,
    Value.__mul__ host a (OValue b) s = (Ok out, s1) ∧
    ∃ s2 s3,
    Value.backward host out s1 = (Ok tt, s2) ∧
    gradient (deref (heap s2) out) = 1%float ∧
    gradient (deref (heap s2) a) = (ga + db)%float ∧
    gradient (deref (heap s2) b) = (gb + da)%float ∧
    Value.backward host out s2 = (Ok tt, s3) ∧
    gradient (deref (heap s3) out) = 1%float ∧
    gradient (deref (heap s3) a) = (ga + db + db)%float ∧
    gradient (deref (heap s3) b) = (gb + da + da)%float.
Proof.
  intros Hwf Ha Hb Hne Pa Pb ga gb da db.
  pose proof (mul_ok host Hhost a (OValue b) s Hwf Ha Hb) as [Hwf1 Hout].
  rewrite mul_eq in Hwf1, Hout. simpl in Hwf1, Hout.
  eexists _, _. split; [apply mul_eq|].
  set (s1 := mkState _ _) in *. set (out := length (heap s)) in *.
  assert (∀ v, v < out → deref (heap s1) v = deref (heap s) v) as Hold.
  { intros v Hv. unfold s1. simpl. by apply deref_app_l. }
  assert (deref (heap s1) out
          = mkValue (da * db) (set_order host [a; b]) op_mul 0
              (mul_backward a b out)) as Dout.
  { unfold s1. simpl. by rewrite deref_app_new. }
  assert (a < out ∧ b < out) as [Hao Hbo] by done.
  change (wf (heap s1)) in Hwf1. change (out < length (heap s1)) in Hout.
  clearbody s1 out.
  assert (∀ hp, same_graph (heap s1) hp →
            previous (deref hp out) = set_order host [a; b] ∧
            _backward (deref hp out) = mul_backward a b out ∧
            previous (deref hp a) = [] ∧ previous (deref hp b) = [] ∧
            data (deref hp a) = da ∧ data (deref hp b) = db) as Hshape.
  { intros hp [_ HG].
    destruct (HG out) as (_ & -> & ->), (HG a) as (-> & -> & _),
      (HG b) as (-> & -> & _).
    rewrite Dout, !Hold by done. by split_and!. }
  assert (∀ x y hp, length hp = length (heap s1) →
            gradient (deref (alter (accumulate x) b
                               (alter (accumulate y) a
                                  (alter (with_gradient 1) out hp))) out)
            = 1%float ∧
            gradient (deref (alter (accumulate x) b
                               (alter (accumulate y) a
                                  (alter (with_gradient 1) out hp))) a)
            = (gradient (deref hp a) + y)%float ∧
            gradient (deref (alter (accumulate x) b
                               (alter (accumulate y) a
                                  (alter (with_gradient 1) out hp))) b)
            = (gradient (deref hp b) + x)%float) as Hgrad.
  { intros x y hp Hlen. split_and!.
    - rewrite !(deref_alter_ne _ _ _ out) by lia.
      by rewrite deref_alter_eq by lia.
    - rewrite (deref_alter_ne _ b _ a) by done.
      rewrite deref_alter_eq by (rewrite length_alter; lia).
      by rewrite deref_alter_ne by lia.
    - rewrite deref_alter_eq by (rewrite !length_alter; lia).
      rewrite (deref_alter_ne _ a _ b) by done.
      by rewrite deref_alter_ne by lia. }
  destruct (Hshape (heap s1) (same_graph_refl _))
    as (P1 & B1 & Pa1 & Pb1 & Da1 & Db1).
  pose proof (backward_product_node s1 out a b Hwf1 Hout Hne P1 B1 Pa1 Pb1)
    as E1.
  rewrite Da1, Db1 in E1.
  set (s2 := mkState _ _) in E1.
  assert (same_graph (heap s1) (heap s2)) as HG.
  { unfold s2. cbn [heap].
    apply (same_graph_trans _ (alter (with_gradient 1) out (heap s1)));
      [apply same_graph_with_gradient|].
    eapply same_graph_trans; apply same_graph_accumulate. }
  destruct (Hshape (heap s2) HG) as (P2 & B2 & Pa2 & Pb2 & Da2 & Db2).
  assert (out < length (heap s2)) as Hout2 by (by rewrite (proj1 HG)).
  pose proof (backward_product_node s2 out a b (wf_same_graph _ _ HG Hwf1)
                Hout2 Hne P2 B2 Pa2 Pb2) as E2.
  rewrite Da2, Db2 in E2.
  eexists _, _. split; [exact E1|].
  destruct (Hgrad da db (heap s1) eq_refl) as (G1 & G2 & G3).
  destruct (Hgrad da db (heap s2) (proj1 HG)) as (G4 & G5 & G6).
  split_and!.
  - exact G1.
  - unfold s2. cbn [heap]. rewrite G2. unfold ga. by rewrite Hold.
  - unfold s2. cbn [heap]. rewrite G3. unfold gb. by rewrite Hold.
  - exact E2.
  - exact G4.
  - cbn [heap]. rewrite G5. unfold s2 at 1. cbn [heap]. rewrite G2.
    unfold ga. by rewrite Hold.
  - cbn [heap]. rewrite G6. unfold s2 at 1. cbn [heap]. rewrite G3.
    unfold gb. by rewrite Hold.
Qed.
End passes.

(** ** Construction of a network *)

Lemma fresh_leaves_refl host s : fresh_leaves host 0 s s.
Proof. split; simpl; [by rewrite app_nil_r|lia]. Qed.

Lemma fresh_leaves_trans host k j s s1 s2 :
  fresh_leaves host k s s1 → fresh_leaves host j s1 s2 →
  fresh_leaves host (k + j) s s2.
Proof.
  intros [H1 D1] [H2 D2]. split; [|lia].
  rewrite H2, H1, D1, seq_app, fmap_app, <- app_assoc. do 2 f_equal. simpl.
  replace (seq k j) with (Nat.add k <$> seq 0 j)
    by (rewrite fmap_add_seq; f_equal; lia).
  rewrite <- list_fmap_compose.
  apply list_fmap_ext. intros ? i ?. simpl. by rewrite Nat.add_assoc.
Qed.

Lemma fresh_leaves_length host k s s' :
  fresh_leaves host k s s' → length (heap s') = length (heap s) + k.
Proof.
  intros [-> _]. by rewrite length_app, length_fmap, length_seq.
Qed.

Section construction.
Context (host : Host).

Lemma random_Value_fresh s :
  ∃ s', Neuron.random_Value host s = (Ok (length (heap s)), s') ∧
        fresh_leaves host 1 s s'.
Proof.
  rewrite random_Value_eq. eexists. split; [done|].
  split; simpl; [|lia]. by rewrite Nat.add_0_r.
Qed.

Lemma repeat_random_fresh nin s :
  ∃ s', repeat_M nin (Neuron.random_Value host) s
        = (Ok (seq (length (heap s)) nin), s') ∧
        fresh_leaves host nin s s'.
Proof.
  revert s. induction nin as [|nin IH]; intros s.
  - exists s. split; [done|apply fresh_leaves_refl].
  - rewrite repeat_M_S.
    destruct (random_Value_fresh s) as (s1 & E1 & F1).
    destruct (IH s1) as (s2 & E2 & F2).
    rewrite E1, E2.
    exists s2. split; [|apply (fresh_leaves_trans host 1 nin s s1 s2 F1 F2)].
    do 2 f_equal. simpl. f_equal.
    rewrite (fresh_leaves_length _ _ _ _ F1). f_equal. lia.
Qed.

Lemma neuron_init_fresh nin s :
  ∃ n s', Neuron.__init__ host nin s = (Ok n, s') ∧
          length (Neuron.w n) = nin ∧
          Neuron.parameters n = seq (length (heap s)) (S nin) ∧
          fresh_leaves host (S nin) s s'.
Proof.
  destruct (repeat_random_fresh nin s) as (s1 & E1 & F1).
  destruct (random_Value_fresh s1) as (s2 & E2 & F2).
  unfold Neuron.__init__. unfold bind at 1. rewrite E1.
  unfold bind at 1. rewrite E2. eexists _, _. split; [done|].
  split_and!.
  - simpl. by rewrite length_seq.
  - unfold Neuron.parameters. cbn [Neuron.w Neuron.b].
    rewrite (fresh_leaves_length _ _ _ _ F1). by rewrite seq_S.
  - replace (S nin) with (nin + 1) by lia.
    by apply (fresh_leaves_trans host nin 1 s s1 s2).
Qed.

Lemma neurons_init_fresh nin nout s :
  ∃ ns s', repeat_M nout (Neuron.__init__ host nin) s = (Ok ns, s') ∧
           length ns = nout ∧
           Forall (λ n, length (Neuron.w n) = nin) ns ∧
           (n ← ns; Neuron.parameters n)
           = seq (length (heap s)) (nout * S nin) ∧
           fresh_leaves host (nout * S nin) s s'.
Proof.
  revert s. induction nout as [|nout IH]; intros s.
  - exists [], s. split_and!; try done. apply fresh_leaves_refl.
  - rewrite repeat_M_S.
    destruct (neuron_init_fresh nin s) as (n & s1 & E1 & Hw & Hp & F1).
    destruct (IH s1) as (ns & s2 & E2 & Hlen & Hws & Hps & F2).
    rewrite E1, E2.
    exists (n :: ns), s2. split_and!.
    + done.
    + simpl. by rewrite Hlen.
    + by constructor.
    + csimpl. rewrite Hps, Hp, (fresh_leaves_length _ _ _ _ F1).
      by rewrite <- seq_app.
    + apply (fresh_leaves_trans host (S nin) (nout * S nin) s s1 s2 F1 F2).
Qed.
End construction.

Section construction2.
Context (host : Host).

Lemma layer_init_fresh nin nout s :
  ∃ l s', Layer.__init__ host nin nout s = (Ok l, s') ∧
          length (Layer.neurons l) = nout ∧
          Forall (λ n, length (Neuron.w n) = nin) (Layer.neurons l) ∧
          Layer.parameters l = seq (length (heap s)) (nout * S nin) ∧
          fresh_leaves host (nout * S nin) s s'.
Proof.
  destruct (neurons_init_fresh host nin nout s)
    as (ns & s' & E & Hlen & Hws & Hps & F).
  exists (Layer.mk ns), s'. split; [|done].
  unfold Layer.__init__, bind. by rewrite E.
Qed.

Lemma build_layers_fresh nouts : ∀ nin s,
  ∃ ls s', MLP.build_layers host nin nouts s = (Ok ls, s') ∧
           Forall2 (λ l nout, length (Layer.neurons l) = nout) ls nouts ∧
           Forall2 (λ l nin, Forall (λ n, length (Neuron.w n) = nin)
                               (Layer.neurons l))
             ls (take (length nouts) (nin :: nouts)) ∧
           (l ← ls; Layer.parameters l)
           = seq (length (heap s)) (parameter_count nin nouts) ∧
           fresh_leaves host (parameter_count nin nouts) s s'.
Proof.
  induction nouts as [|nout nouts IH]; intros nin s.
  - exists [], s. split_and!; [done|constructor|constructor|done|].
    apply fresh_leaves_refl.
  - destruct (layer_init_fresh nin nout s)
      as (l & s1 & E1 & Hlen & Hws & Hps & F1).
    destruct (IH nout s1) as (ls & s2 & E2 & Hlens & Hwss & Hpss & F2).
    exists (l :: ls), s2. split_and!.
    + simpl. unfold bind at 1. rewrite E1. unfold bind at 1. by rewrite E2.
    + by constructor.
    + simpl. by constructor.
    + csimpl. rewrite Hpss, Hps, (fresh_leaves_length _ _ _ _ F1).
      by rewrite <- seq_app.
    + apply (fresh_leaves_trans host _ _ s s1 s2 F1 F2).
Qed.

(** X10: [MLP(nin, nouts)] always returns.  It has one layer per entry
    of [nouts], the layer [i] with [nouts[i]] neurons, each of as many
    weights as the layer before has neurons ([nin] for the first).  Its
    parameters are the handles from the old length of the heap on, in
    allocation order, [parameter_count nin nouts] of them and pairwise
    distinct; the heap has grown by exactly these nodes, each a leaf of
    gradient 0 holding the next draw of the random source. *)
Theorem mlp_init nin nouts s :
  ∃ m s', MLP.__init__ host nin nouts s = (Ok m, s') ∧
    Forall2 (λ l nout, length (Layer.neurons l) = nout) (MLP.layers m) nouts ∧
    Forall2 (λ l nin, Forall (λ n, length (Neuron.w n) = nin)
                        (Layer.neurons l))
      (MLP.layers m) (take (length nouts) (nin :: nouts)) ∧
    MLP.parameters m = seq (length (heap s)) (parameter_count nin nouts) ∧
    NoDup (MLP.parameters m) ∧
    fresh_leaves host (parameter_count nin nouts) s s'.
Proof.
  destruct (build_layers_fresh nouts nin s)
    as (ls & s' & E & Hlens & Hws & Hps & F).
  exists (MLP.mk ls), s'. split_and!; try done.
  - unfold MLP.__init__, bind. by rewrite E.
  - unfold MLP.parameters. simpl. rewrite Hps. apply NoDup_seq.
Qed.
End construction2.

(** ** A bare node where a list of inputs is expected *)

Section bare.
Context (host : Host).

Lemma layer_bare_input l v s :
  Layer.neurons l ≠ [] →
  Layer.__call__ host l (one v) s = (Raise TypeError, s).
Proof.
  unfold Layer.__call__. destruct (Layer.neurons l) as [|n ns]; [done|].
  intros _. unfold bind. by rewrite map_M_cons.
Qed.

(** X11: a network whose layer of exactly one neuron is followed by a
    layer with neurons cannot be evaluated: the single neuron's output
    leaves the first layer as a bare node, and the next layer raises
    [TypeError] when it zips its weights with it (an exception of the
    single neuron is passed on instead).  The same holds when a bare node
    is handed to a network whose first layer has neurons. *)
Theorem single_neuron_hidden l1 l2 rest n x s :
  Layer.neurons l1 = [n] → Layer.neurons l2 ≠ [] →
  (∀ v, MLP.__call__ host (MLP.mk (l2 :: rest)) (one v) s
        = (Raise TypeError, s)) ∧
  (∀ v s1, Neuron.__call__ host n x s = (Ok v, s1) →
     MLP.__call__ host (MLP.mk (l1 :: l2 :: rest)) x s
     = (Raise TypeError, s1)) ∧
  (∀ e s1, Neuron.__call__ host n x s = (Raise e, s1) →
     MLP.__call__ host (MLP.mk (l1 :: l2 :: rest)) x s = (Raise e, s1)).
Proof.
  intros H1 H2. split_and!.
  - intros v. unfold MLP.__call__. simpl. unfold bind.
    by rewrite layer_bare_input.
  - intros v s1 E. unfold MLP.__call__. simpl. unfold bind at 1.
    unfold Layer.__call__ at 1. rewrite H1. unfold bind at 1.
    rewrite map_M_cons, E. simpl. unfold bind.
    by rewrite layer_bare_input.
  - intros e s1 E. unfold MLP.__call__. simpl. unfold bind at 1.
    unfold Layer.__call__ at 1. rewrite H1. unfold bind at 1.
    by rewrite map_M_cons, E.
Qed.
End bare.

(** ** The number a neuron computes *)

Section neuron_number.
Context (host : Host).

Lemma tanh_outcome s a :
  let x := data (deref (heap s) a) in
  match math_exp host (2 * x) with
  | Raise e => Value.tanh host a s = (Raise e, s)
  | Ok E =>
      if (E + 1 =? 0)%float
      then Value.tanh host a s = (Raise ZeroDivisionError, s)
      else Value.tanh host a s
           = (Ok (length (heap s)),
              mkState (heap s ++ [mkValue ((E - 1) / (E + 1))
                                    (set_order host [a]) op_tanh 0
                                    (tanh_backward a ((E - 1) / (E + 1))
                                       (length (heap s)))]) (draws s))
  end.
Proof.
  simpl. destruct (math_exp host _) as [E|e] eqn:HE.
  - destruct (E + 1 =? 0)%float eqn:Hz.
    + cbv [Value.tanh bind read lift float_truediv]. by rewrite HE, Hz.
    + unfold Value.tanh. unfold bind at 1, read at 1.
      unfold bind at 1, lift at 1. rewrite HE.
      unfold bind at 1, lift at 1.
      unfold bind at 1, lift at 1, float_truediv. rewrite Hz.
      by rewrite (new_node host _ _ _ (λ out, tanh_backward a _ out)).
  - cbv [Value.tanh bind read lift]. by rewrite HE.
Qed.

Lemma sum_value l : ∀ acc s,
  acc < length (heap s) →
  Forall (λ wx, wx.1 < length (heap s) ∧ operand_ok wx.2 (heap s)) l →
  ∃ out s', fold_M (Neuron.sum_step host) l acc s = (Ok out, s') ∧
    out < length (heap s') ∧
    data (deref (heap s') out)
    = fold_left (λ acc wx, (acc + data (deref (heap s) wx.1)
                                  * operand_value (heap s) wx.2)%float)
        l (data (deref (heap s) acc)) ∧
    (∀ v, v < length (heap s) → deref (heap s') v = deref (heap s) v) ∧
    length (heap s) ≤ length (heap s') ∧ draws s' = draws s.
Proof.
  induction l as [|[w x] l IH]; intros acc s Hacc Hl.
  - exists acc, s. by split_and!.
  - apply Forall_cons in Hl as [[Hw Hx] Hl]. simpl in Hw, Hx.
    destruct (mul_value host w x s Hw Hx)
      as (p & s1 & E1 & Hp & Dp & _ & Old1 & Len1 & Dr1).
    destruct (add_value host acc (OValue p) s1 ltac:(lia) Hp)
      as (q & s2 & E2 & Hq & Dq & _ & Old2 & Len2 & Dr2).
    destruct (IH q s2 Hq) as (out & s3 & E3 & Hout & Dout & Old3 & Len3 & Dr3).
    { eapply Forall_impl; [exact Hl|]. intros [w' x'] [Hw' Hx']. simpl in *.
      split; [lia|]. eapply operand_ok_mono; [|exact Hx']. lia. }
    exists out, s3. split_and!.
    + simpl. unfold bind at 1. unfold Neuron.sum_step at 1. simpl.
      unfold bind at 1. rewrite E1. by rewrite E2.
    + done.
    + rewrite Dout. simpl. rewrite Dq. simpl. rewrite Old1, Dp by done.
      assert (∀ v, v < length (heap s) → deref (heap s2) v = deref (heap s) v)
        as Old12 by (intros v Hv; rewrite Old2 by lia; by apply Old1).
      assert (∀ o, operand_ok o (heap s) →
                operand_value (heap s2) o = operand_value (heap s) o) as Ov.
      { intros [v|y] Ho; simpl in *; [by rewrite Old12|done]. }
      revert Hl. generalize (data (deref (heap s) acc)
                             + data (deref (heap s) w)
                               * operand_value (heap s) x)%float.
      clear -Old12 Ov. induction l as [|[w' x'] l IHl]; intros a Hl; [done|].
      apply Forall_cons in Hl as [[Hw' Hx'] Hl]. simpl in *.
      rewrite Old12, Ov by done. by apply IHl.
    + intros v Hv. rewrite Old3, Old2, Old1 by lia. done.
    + lia.
    + congruence.
Qed.

(** X12: a neuron called with a list of inputs (nodes of the heap or
    bare numbers) computes [act = b + w1*x1 + ... + wk*xk], summed from the
    left starting at the bias over the pairs that [zip] yields, and then
    [tanh]: with [E = math.exp(2 * act)] it returns a node of data
    [(E - 1)/(E + 1)], raises [ZeroDivisionError] if [E + 1] is zero, and
    passes on an exception of [math.exp].  In each case the nodes that were
    in the heap are left as they were and the random source is not
    consulted. *)
Theorem neuron_value n xs s :
  neuron_ok n (heap s) → Forall (λ o, operand_ok o (heap s)) xs →
  let act := weighted_sum (heap s) (Neuron.w n) xs (Neuron.b n) in
  ∃ s',
    draws s' = draws s ∧
    (∀ v, v < length (heap s) → deref (heap s') v = deref (heap s) v) ∧
    match math_exp host (2 * act) with
    | Raise e => Neuron.__call__ host n (many xs) s = (Raise e, s')
    | Ok E =>
        if (E + 1 =? 0)%float
        then Neuron.__call__ host n (many xs) s
             = (Raise ZeroDivisionError, s')
        else ∃ out, Neuron.__call__ host n (many xs) s = (Ok out, s') ∧
                    out < length (heap s') ∧
                    data (deref (heap s') out) = ((E - 1) / (E + 1))%float
    end.
Proof.
  intros [Hw Hb] Hxs act.
  destruct (sum_value (zip (Neuron.w n) xs) (Neuron.b n) s Hb)
    as (a & s1 & E1 & Ha & Da & Old1 & Len1 & Dr1).
  { apply Forall_forall. intros [w x] Hin. simpl. split.
    - apply elem_of_zip_l in Hin. by apply (proj1 (Forall_forall _ _) Hw).
    - apply elem_of_zip_r in Hin. by apply (proj1 (Forall_forall _ _) Hxs). }
  fold (weighted_sum (heap s) (Neuron.w n) xs (Neuron.b n)) in Da.
  fold act in Da.
  pose proof (tanh_outcome s1 a) as Ht. simpl in Ht. rewrite Da in Ht.
  unfold Neuron.__call__. unfold bind. rewrite E1.
  destruct (math_exp host (2 * act)) as [E|e].
  - destruct (E + 1 =? 0)%float.
    + exists s1. by split_and!.
    + eexists. split_and!; [| |eexists; split; [exact Ht|]]; simpl.
      * done.
      * intros v Hv. rewrite deref_app_l by lia. by apply Old1.
      * rewrite length_app. simpl. split; [lia|]. by rewrite deref_app_new.
  - exists s1. by split_and!.
Qed.
End neuron_number.

(** ** The loops of the training script *)

Lemma sweep_spec (f : Value → Value) (body : handle → M unit) ps :
  (∀ p st, body p st = (Ok tt, mkState (alter f p (heap st)) (draws st))) →
  NoDup ps → ∀ s,
  ∃ s', for_each body ps s = (Ok tt, s') ∧
    draws s' = draws s ∧ length (heap s') = length (heap s) ∧
    (∀ p, p ∈ ps → p < length (heap s) →
       deref (heap s') p = f (deref (heap s) p)) ∧
    (∀ v, v ∉ ps → deref (heap s') v = deref (heap s) v).
Proof.
  intros Hbody. induction ps as [|p ps IH]; intros ND s.
  - exists s. split_and!; try done. intros p Hp. by apply elem_of_nil in Hp.
  - apply NoDup_cons in ND as [Hp ND].
    destruct (IH ND (mkState (alter f p (heap s)) (draws s)))
      as (s' & E & Hd & Hl & Hin & Hout).
    cbn [heap draws] in *. rewrite length_alter in Hl.
    exists s'. split_and!; try done.
    + by rewrite for_each_cons, Hbody.
    + intros q Hq Hlt. apply elem_of_cons in Hq as [->|Hq].
      * rewrite Hout by done. by rewrite deref_alter_eq.
      * rewrite Hin by (by rewrite ?length_alter).
        rewrite deref_alter_ne; [done|]. by intros ->.
    + intros v Hv. rewrite Hout.
      * apply deref_alter_ne. intros ->. apply Hv. by left.
      * intros Hv'. apply Hv. by right.
Qed.

(** X13: the two loops of the training script over a duplicate-free
    list of parameters.  The first sets the gradient of each parameter to
    0.0 and changes nothing else; the second replaces the data of each
    parameter by [data + -0.1 * gradient], once, with the gradient the
    parameter held, and changes nothing else.  Neither touches a node that
    is not in the list, the length of the heap or the random source. *)
Theorem parameter_sweeps ps s :
  NoDup ps →
  (∃ s', zero_gradients ps s = (Ok tt, s') ∧
     draws s' = draws s ∧ length (heap s') = length (heap s) ∧
     (∀ p, p ∈ ps → p < length (heap s) →
        deref (heap s') p = with_gradient 0 (deref (heap s) p)) ∧
     (∀ v, v ∉ ps → deref (heap s') v = deref (heap s) v)) ∧
  (∃ s', update ps s = (Ok tt, s') ∧
     draws s' = draws s ∧ length (heap s') = length (heap s) ∧
     (∀ p, p ∈ ps → p < length (heap s) →
        deref (heap s') p
        = with_data (data (deref (heap s) p)
                     + learning_step * gradient (deref (heap s) p))
            (deref (heap s) p)) ∧
     (∀ v, v ∉ ps → deref (heap s') v = deref (heap s) v)).
Proof.
  intros ND. split.
  - by apply (sweep_spec (with_gradient 0)).
  - set (f := λ n : Value,
               with_data (data n + learning_step * gradient n) n).
    destruct (sweep_spec f
                (λ p, d <- read data p ;; g <- read gradient p ;;
                      write (with_data (d + learning_step * g)) p) ps)
      with (s := s) as (s' & E & H); [|done|by exists s'].
    intros p st. cbv [bind read write]. do 2 f_equal.
    apply list_alter_ext; [|done]. intros n Hn. unfold f, deref.
    by rewrite Hn.
Qed.

(** ** Closed instances of the further properties *)

Lemma two_leaves_wf : wf (heap two_leaves).
Proof.
  apply (wf_snoc [_]); [apply (wf_snoc []); [apply wf_nil|]|];
    apply node_ok_leaf.
Qed.


Lemma reflected_values_witness :
  0 < length (heap two_leaves) ∧
  ∃ out s', Value.__radd__ sample_host 0 (ONum 2) two_leaves = (Ok out, s') ∧
            data (deref (heap s') out)
            = (2 + data (deref (heap two_leaves) 0))%float.
Proof.
  split; [simpl; lia|].
  destruct (reflected_values sample_host two_leaves 0 2)
    as [(out & s' & E & D) _]; [simpl; lia|].
  by exists out, s'.
Defined.

Lemma truediv_number_witness :
  0 < length (heap two_leaves) ∧
  Value.__truediv__ sample_host 0 (ONum 0) two_leaves
  = (Raise ZeroDivisionError, two_leaves).
Proof.
  split; [simpl; lia|].
  destruct (truediv_number sample_host two_leaves 0 0) as [H _];
    [simpl; lia|].
  by apply H.
Defined.

Lemma truediv_value_witness :
  1 < length (heap two_leaves) ∧ 0 < length (heap two_leaves) ∧
  Value.pow sample_host (data (deref (heap two_leaves) 0)) (Int (-1))
  = Ok 1%float ∧
  ∃ s', Value.__truediv__ sample_host 1 (OValue 0) two_leaves = (Ok 3, s') ∧
        length (heap s') = 4.
Proof.
  split; [simpl; lia|]. split; [simpl; lia|]. split; [reflexivity|].
  destruct (truediv_value sample_host two_leaves 1 0 1)
    as (s' & E & L & _); [simpl; lia|simpl; lia|reflexivity|].
  by exists s'.
Defined.



Lemma backward_product_witness :
  wf (heap two_leaves) ∧ 0 < length (heap two_leaves) ∧
  1 < length (heap two_leaves) ∧ 0 ≠ 1 ∧
  previous (deref (heap two_leaves) 0) = [] ∧
  previous (deref (heap two_leaves) 1) = [] ∧
  ∃ out s1 s2,
    Value.__mul__ sample_host 0 (OValue 1) two_leaves = (Ok out, s1) ∧
    Value.backward sample_host out s1 = (Ok tt, s2) ∧
    gradient (deref (heap s2) 1)
    = (gradient (deref (heap two_leaves) 1)
       + data (deref (heap two_leaves) 0))%float.
Proof.
  split; [apply two_leaves_wf|]. do 2 (split; [simpl; lia|]).
  split; [lia|]. do 2 (split; [done|]).
  destruct (backward_product sample_host sample_host_ok two_leaves 0 1
              two_leaves_wf)
    as (out & s1 & E & s2 & s3 & B & _ & _ & G & _);
    [simpl; lia|simpl; lia|lia|done|done|].
  by exists out, s1, s2.
Defined.

Lemma single_neuron_hidden_witness :
  Layer.neurons single_layer = [Neuron.mk [0; 1] 2] ∧
  Layer.neurons single_layer ≠ [] ∧
  MLP.__call__ sample_host (MLP.mk [single_layer; single_layer])
    (many [ONum 8; ONum 2]) single_state
  = (Raise TypeError,
     (Neuron.__call__ sample_host (Neuron.mk [0; 1] 2)
        (many [ONum 8; ONum 2]) single_state).2).
Proof.
  split; [done|]. split; [done|].
  destruct (single_neuron_hidden sample_host single_layer single_layer []
              (Neuron.mk [0; 1] 2) (many [ONum 8; ONum 2]) single_state)
    as (_ & H & _); [done..|].
  eapply H. vm_compute. reflexivity.
Defined.

Lemma neuron_value_witness :
  neuron_ok (Neuron.mk [0; 1] 2) (heap single_state) ∧
  Forall (λ o, operand_ok o (heap single_state)) [ONum 8; ONum 2] ∧
  weighted_sum (heap single_state) [0; 1] [ONum 8; ONum 2] 2 = 4%float ∧
  ∃ out s',
    Neuron.__call__ sample_host (Neuron.mk [0; 1] 2) (many [ONum 8; ONum 2])
      single_state = (Ok out, s') ∧
    data (deref (heap s') out)
    = ((0x1.749ea7d470c6ep+11 - 1) / (0x1.749ea7d470c6ep+11 + 1))%float.
Proof.
  assert (neuron_ok (Neuron.mk [0; 1] 2) (heap single_state)) as Hn.
  { split; [repeat constructor; simpl; lia|simpl; lia]. }
  assert (Forall (λ o, operand_ok o (heap single_state)) [ONum 8; ONum 2])
    as Hx by (by repeat constructor).
  split; [exact Hn|]. split; [exact Hx|]. split; [by vm_compute|].
  destruct (neuron_value sample_host (Neuron.mk [0; 1] 2) [ONum 8; ONum 2]
              single_state Hn Hx) as (s' & _ & _ & H).
  vm_compute in H. destruct H as (out & E & _ & D).
  exists out, s'. split; [exact E|exact D].
Defined.

Lemma parameter_sweeps_witness :
  NoDup [0; 1] ∧
  ∃ s', update [0; 1] two_leaves = (Ok tt, s') ∧
        deref (heap s') 0 = with_data (1 + learning_step * 0) (leaf 1).
Proof.
  assert (NoDup [0; 1]) as ND.
  { apply NoDup_cons. split; [|apply NoDup_singleton].
    intros H. apply list_elem_of_singleton in H. lia. }
  split; [exact ND|].
  destruct (parameter_sweeps [0; 1] two_leaves ND)
    as [_ (s' & E & _ & _ & H & _)].
  exists s'. split; [exact E|]. apply (H 0); [by left|simpl; lia].
Defined.
